(** * audio-tools: the biquad step visualizer and the LFO effects demo

    A shallow embedding of the two React components of the site,
    [src/tools/BiquadVisualizer.tsx] and [src/tools/LFOEffects.tsx].

    Numbers.  Every number the components hold comes from a literal or from
    [Number(e.target.value)] of a range input or a select, so it is a decimal
    fraction; such values are modelled as exact rationals ([Q]).  The waveform
    routine applies [Math.sin] and [Math.PI] to them and is modelled over the
    real numbers ([R]), the slider values being injected with [Q2R].  Rounding
    of IEEE doubles is not part of the model.

    React.  A component is modelled by a record of its [useState] cells and
    [useRef] boxes; an event handler is a function on that record, and a state
    setter takes effect at once. *)

From Stdlib Require Import QArith Qreals Reals Psatz.
From Stdlib Require Import List String Bool Arith.
Import ListNotations.

(** A template literal is kept as its sequence of pieces: the literal text,
    [${v}] and [${v.toFixed(d)}].  The numbers stay numbers; the decimal
    rendering done by the browser is not modelled. *)
Inductive Fragment : Type :=
| Lit (text : string)
| Num (v : Q)
| ToFixed (v : Q) (digits : nat).

(* ================================================================= *)
(** ** BiquadVisualizer.tsx *)

Module BiquadVisualizer.

Local Open Scope Q_scope.
Local Open Scope string_scope.

(** The [useState] cells of the component.  [x1], [x2], [y1], [y2] are
    declared without a setter ([const [x1] = useState(0.5)]). *)
Record State : Type := mkState {
  step : nat;
  isPlaying : bool;
  speed : nat;
  x1 : Q;
  x2 : Q;
  y1 : Q;
  y2 : Q
}.

(** The state of the first render. *)
Definition mount : State :=
  {| step := 0; isPlaying := false; speed := 1000;
     x1 := 0.5; x2 := 0; y1 := 0.3; y2 := 0.1 |}.

(** Sample values for demonstration. *)
Definition x : list Q := [0; 0.5; 1.0; 0.8; 0.3; -0.2; -0.6; -0.4].
Definition currentIndex : nat := 2.

(** [x[currentIndex]].  The index is a constant inside the constant array
    (see [currentIndex_in_range]); the default is never used. *)
Definition x_n : Q := nth currentIndex x 0.

(** Biquad coefficients (example lowpass). *)
Definition b0 : Q := 0.067.
Definition b1 : Q := 0.134.
Definition b2 : Q := 0.067.
Definition a1 : Q := -1.143.
Definition a2 : Q := 0.413.

(** The expression of step 4's equation, [b0*x[currentIndex] + b1*x1 + b2*x2]. *)
Definition feedforward (s : State) : Q :=
  b0 * x_n + b1 * x1 s + b2 * x2 s.

(** The expression of step 5's equation, [-a1*y1 - a2*y2]. *)
Definition feedback (s : State) : Q :=
  - a1 * y1 s - a2 * y2 s.

(** [const yn = b0*x[currentIndex] + b1*x1 + b2*x2 - a1*y1 - a2*y2], which
    is also the expression of step 6's equation. *)
Definition yn (s : State) : Q :=
  b0 * x_n + b1 * x1 s + b2 * x2 s - a1 * y1 s - a2 * y2 s.

Record StepDescriptor : Type := mkStep {
  title : string;
  description : string;
  highlight : string;
  equation : option (list Fragment)
}.

Definition steps (s : State) : list StepDescriptor :=
  [ {| title := "Step 1: Input Signal";
       description := "The biquad filter processes an input signal x[n] sample by sample. Each sample is processed sequentially.";
       highlight := "input";
       equation := None |};
    {| title := "Step 2: Store Previous Inputs";
       description := "We keep track of the two previous input samples: x[n-1] and x[n-2]. These are called 'delay elements' or 'state variables'.";
       highlight := "delays-x";
       equation := None |};
    {| title := "Step 3: Store Previous Outputs";
       description := "We also store the two previous output samples: y[n-1] and y[n-2]. The filter uses its own past outputs!";
       highlight := "delays-y";
       equation := None |};
    {| title := "Step 4: Feedforward Path";
       description := "Calculate the feedforward part: b0·x[n] + b1·x[n-1] + b2·x[n-2]. This processes the input signal.";
       highlight := "feedforward";
       equation := Some
         [ ToFixed b0 3; Lit "·"; ToFixed x_n 1; Lit " + ";
           ToFixed b1 3; Lit "·"; ToFixed (x1 s) 1; Lit " + ";
           ToFixed b2 3; Lit "·"; ToFixed (x2 s) 1; Lit " = ";
           ToFixed (feedforward s) 3 ] |};
    {| title := "Step 5: Feedback Path";
       description := "Calculate the feedback part: -a1·y[n-1] - a2·y[n-2]. This creates the recursive (IIR) nature of the filter.";
       highlight := "feedback";
       equation := Some
         [ ToFixed (- a1) 3; Lit "·"; ToFixed (y1 s) 1; Lit " + ";
           ToFixed (- a2) 3; Lit "·"; ToFixed (y2 s) 1; Lit " = ";
           ToFixed (feedback s) 3 ] |};
    {| title := "Step 6: Combine & Output";
       description := "Add feedforward and feedback to get the output: y[n] = (feedforward) + (feedback)";
       highlight := "output";
       equation := Some [ Lit "y[n] = "; ToFixed (yn s) 3 ] |};
    {| title := "Step 7: Update State";
       description := "Shift the delay elements: x[n-2]←x[n-1], x[n-1]←x[n], y[n-2]←y[n-1], y[n-1]←y[n]. Then move to the next sample!";
       highlight := "update";
       equation := None |} ].

(** [const currentStep = steps[step]]. *)
Definition currentStep (s : State) : option StepDescriptor :=
  nth_error (steps s) (step s).

(** *** Event handlers *)

Definition setStep (v : nat) (s : State) : State :=
  {| step := v; isPlaying := isPlaying s; speed := speed s;
     x1 := x1 s; x2 := x2 s; y1 := y1 s; y2 := y2 s |}.

Definition setIsPlaying (v : bool) (s : State) : State :=
  {| step := step s; isPlaying := v; speed := speed s;
     x1 := x1 s; x2 := x2 s; y1 := y1 s; y2 := y2 s |}.

Definition setSpeed (v : nat) (s : State) : State :=
  {| step := step s; isPlaying := isPlaying s; speed := v;
     x1 := x1 s; x2 := x2 s; y1 := y1 s; y2 := y2 s |}.

(** The updater the timer passes to [setStep]:
    [prev => (prev + 1) % steps.length]. *)
Definition advance_step (s : State) (prev : nat) : nat :=
  ((prev + 1) mod List.length (steps s))%nat.

(** One firing of the interval callback. *)
Definition tick (s : State) : State :=
  setStep (advance_step s (step s)) s.

(** Play / Pause button: [setIsPlaying(!isPlaying)]. *)
Definition onPlayPause (s : State) : State :=
  setIsPlaying (negb (isPlaying s)) s.

(** Reset button: [setStep(0); setIsPlaying(false)]. *)
Definition onReset (s : State) : State :=
  setIsPlaying false (setStep 0 s).

(** Step indicator [idx]: [setStep(idx); setIsPlaying(false)]. *)
Definition onSelectStep (idx : nat) (s : State) : State :=
  setIsPlaying false (setStep idx s).

(** Speed select: [setSpeed(Number(e.target.value))]. *)
Definition onSpeedChange (v : nat) (s : State) : State :=
  setSpeed v s.

(** The values the speed select offers. *)
Definition speedOptions : list nat := [2000; 1000; 500]%nat.

(** What can happen to a mounted component.  The interval exists only while
    [isPlaying] holds (the effect creates it under [if (isPlaying)] and its
    cleanup clears it); the step buttons are produced by [steps.map], so
    their indices are below [steps.length]. *)
Inductive fires : State -> State -> Prop :=
| fires_tick s :
    isPlaying s = true -> fires s (tick s)
| fires_play_pause s :
    fires s (onPlayPause s)
| fires_reset s :
    fires s (onReset s)
| fires_select s idx :
    (idx < List.length (steps s))%nat -> fires s (onSelectStep idx s)
| fires_speed s v :
    In v speedOptions -> fires s (onSpeedChange v s).

Inductive reachable : State -> Prop :=
| reachable_mount : reachable mount
| reachable_fires s s' : reachable s -> fires s s' -> reachable s'.

(** *** The delay-line shift of the Biquad Step Engine *)

Module Engine.

(** Modelled from the spec: [BiquadState], the record [{ x1, x2, y1, y2 }] of
    the two most recent inputs and outputs.  The component holds these four
    values in four separate cells and has no such type. *)
Record BiquadState : Type := mkBiquadState {
  x1 : Q;
  x2 : Q;
  y1 : Q;
  y2 : Q
}.

(** Modelled from the spec: [advance(state, newX, newY)], which the component
    does not define (its cells [x1], [x2], [y1], [y2] have no setter, and the
    shift is only worded in the description of step 7).  The contract reads
    [x2 <- x1, x1 <- newX, y2 <- y1, y1 <- newY]. *)
Definition advance (state : BiquadState) (newX newY : Q) : BiquadState :=
  {| x1 := newX; x2 := x1 state; y1 := newY; y2 := y1 state |}.

End Engine.

(** The four delay cells of the component, read as a [BiquadState]. *)
Definition delayLine (s : State) : Engine.BiquadState :=
  {| Engine.x1 := x1 s; Engine.x2 := x2 s;
     Engine.y1 := y1 s; Engine.y2 := y2 s |}.

(** *** What the diagram shows *)

(** The [highlight] each [<g className=...>] of the diagram tests
    [currentStep.highlight] against, in document order. *)
Definition diagramGroups : list string :=
  [ "input"; "delays-x"; "feedforward"; "feedforward";
    "delays-y"; "feedback"; "output"; "output" ].

(** The groups that carry the class [highlighted] in state [s]. *)
Definition highlighted (s : State) : list string :=
  match currentStep s with
  | Some d => filter (String.eqb (highlight d)) diagramGroups
  | None => []
  end.

(** Whether the equation box is rendered ([currentStep.equation && ...]). *)
Definition showsEquation (s : State) : bool :=
  match currentStep s with
  | Some d => match equation d with Some _ => true | None => false end
  | None => false
  end.

End BiquadVisualizer.

(* ================================================================= *)
(** ** LFOEffects.tsx *)

Module LFOEffects.

Local Open Scope string_scope.

(** *** The Web Audio objects the component holds *)

(** An [OscillatorNode] may be started once; [stop()] before [start()]
    raises [InvalidStateError]. *)
Inductive OscillatorStatus : Type := Unstarted | Sounding | Stopped.

Record OscillatorNode : Type := mkOscillator {
  frequency : Q;
  osc_type : string;
  status : OscillatorStatus
}.

Record GainNode : Type := mkGain { gain : Q }.

Inductive AudioNode : Type :=
| Oscillator (o : OscillatorNode)
| Gain (g : GainNode).

(** A reference to a node object: its position in the store of nodes. *)
Definition NodeRef : Type := nat.

Inductive Endpoint : Type :=
| Input (n : NodeRef)
| GainParam (n : NodeRef)
| Destination.

Inductive ContextState : Type := suspended | running | closed.

Record AudioContext : Type := mkContext {
  ctx_state : ContextState;
  connections : list (NodeRef * Endpoint)
}.

(** The [useState] cells, the [useRef] boxes and the node objects they may
    point to.  Several boxes and the audio graph can name one node, so the
    nodes live in [nodes] and are named by position. *)
Record State : Type := mkState {
  carrierFreq : Q;
  lfoRate : Q;
  depth : Q;
  isPlaying : bool;
  audioContextRef : option AudioContext;
  oscillatorRef : option NodeRef;
  lfoOscillatorRef : option NodeRef;
  gainNodeRef : option NodeRef;
  lfoGainRef : option NodeRef;
  nodes : list AudioNode
}.

Definition mount : State :=
  {| carrierFreq := 440; lfoRate := 5; depth := 100; isPlaying := false;
     audioContextRef := None; oscillatorRef := None; lfoOscillatorRef := None;
     gainNodeRef := None; lfoGainRef := None; nodes := [] |}.

Definition setCarrierFreq (v : Q) (s : State) : State :=
  mkState v (lfoRate s) (depth s) (isPlaying s) (audioContextRef s)
    (oscillatorRef s) (lfoOscillatorRef s) (gainNodeRef s) (lfoGainRef s) (nodes s).

Definition setLfoRate (v : Q) (s : State) : State :=
  mkState (carrierFreq s) v (depth s) (isPlaying s) (audioContextRef s)
    (oscillatorRef s) (lfoOscillatorRef s) (gainNodeRef s) (lfoGainRef s) (nodes s).

Definition setDepth (v : Q) (s : State) : State :=
  mkState (carrierFreq s) (lfoRate s) v (isPlaying s) (audioContextRef s)
    (oscillatorRef s) (lfoOscillatorRef s) (gainNodeRef s) (lfoGainRef s) (nodes s).

Definition setIsPlaying (v : bool) (s : State) : State :=
  mkState (carrierFreq s) (lfoRate s) (depth s) v (audioContextRef s)
    (oscillatorRef s) (lfoOscillatorRef s) (gainNodeRef s) (lfoGainRef s) (nodes s).

Definition set_audioContextRef (v : option AudioContext) (s : State) : State :=
  mkState (carrierFreq s) (lfoRate s) (depth s) (isPlaying s) v
    (oscillatorRef s) (lfoOscillatorRef s) (gainNodeRef s) (lfoGainRef s) (nodes s).

Definition set_oscillatorRef (v : option NodeRef) (s : State) : State :=
  mkState (carrierFreq s) (lfoRate s) (depth s) (isPlaying s) (audioContextRef s)
    v (lfoOscillatorRef s) (gainNodeRef s) (lfoGainRef s) (nodes s).

Definition set_lfoOscillatorRef (v : option NodeRef) (s : State) : State :=
  mkState (carrierFreq s) (lfoRate s) (depth s) (isPlaying s) (audioContextRef s)
    (oscillatorRef s) v (gainNodeRef s) (lfoGainRef s) (nodes s).

Definition set_gainNodeRef (v : option NodeRef) (s : State) : State :=
  mkState (carrierFreq s) (lfoRate s) (depth s) (isPlaying s) (audioContextRef s)
    (oscillatorRef s) (lfoOscillatorRef s) v (lfoGainRef s) (nodes s).

Definition set_lfoGainRef (v : option NodeRef) (s : State) : State :=
  mkState (carrierFreq s) (lfoRate s) (depth s) (isPlaying s) (audioContextRef s)
    (oscillatorRef s) (lfoOscillatorRef s) (gainNodeRef s) v (nodes s).

Definition set_nodes (v : list AudioNode) (s : State) : State :=
  mkState (carrierFreq s) (lfoRate s) (depth s) (isPlaying s) (audioContextRef s)
    (oscillatorRef s) (lfoOscillatorRef s) (gainNodeRef s) (lfoGainRef s) v.

(** *** getEffectInfo *)

(** The three objects [getEffectInfo] can return, by their [type] field. *)
Inductive EffectClassification : Type := Tremolo | Transition | RingModulation.

(** The text of the [type] field. *)
Definition type_text (c : EffectClassification) : string :=
  match c with
  | Tremolo => "TREMOLO EFFECT"
  | Transition => "TRANSITION ZONE"
  | RingModulation => "RING MODULATION"
  end.

Record EffectInfo : Type := mkEffectInfo {
  type : EffectClassification;
  icon : string;
  gradient : string;
  description : list Fragment
}.

(** Determine effect type based on LFO rate. *)
Definition getEffectInfo (s : State) : EffectInfo :=
  if Qlt_le_dec (lfoRate s) 20 then
    {| type := Tremolo;
       icon := "🔊";
       gradient := "linear-gradient(135deg, #00f5ff 0%, #a855f7 100%)";
       description :=
         [ Lit "Volume pulsing "; Num (lfoRate s);
           Lit " times per second. Pitch stays at "; Num (carrierFreq s);
           Lit " Hz." ] |}
  else if Qlt_le_dec (lfoRate s) 50 then
    {| type := Transition;
       icon := "⚡";
       gradient := "linear-gradient(135deg, #f093fb 0%, #f5576c 100%)";
       description :=
         [ Lit "Between tremolo and ring modulation. Starting to create sidebands at ";
           ToFixed (carrierFreq s - lfoRate s) 0; Lit " Hz and ";
           ToFixed (carrierFreq s + lfoRate s) 0; Lit " Hz." ] |}
  else
    {| type := RingModulation;
       icon := "🎸";
       gradient := "linear-gradient(135deg, #ff6b35 0%, #f7c600 100%)";
       description :=
         [ Lit "Creating new frequencies! Sidebands at ";
           ToFixed (carrierFreq s - lfoRate s) 0; Lit " Hz and ";
           ToFixed (carrierFreq s + lfoRate s) 0; Lit " Hz. Original ";
           Num (carrierFreq s); Lit " Hz is suppressed." ] |}.

(** The spec's [classify]: the variant [getEffectInfo] selects. *)
Definition classify (s : State) : EffectClassification :=
  type (getEffectInfo s).

(** *** drawWaveform: the waveform loop *)

(** What the routine reads of the canvas: the size [getBoundingClientRect]
    reports and whether [getContext('2d')] yields a context. *)
Record Canvas : Type := mkCanvas {
  rect_width : R;
  rect_height : R;
  context2d : bool
}.

Inductive PathCommand : Type :=
| moveTo (px py : R)
| lineTo (px py : R).

Section Waveform.

Local Open Scope R_scope.

Variable s : State.
Variables width height : R.

Definition samples : nat := 2000.

(** [const duration = lfoRate < 20 ? 1.0 : 0.1]. *)
Definition duration : R :=
  if Qlt_le_dec (lfoRate s) 20 then 1.0 else 0.1.

Definition centerY : R := height / 2.
Definition amplitude : R := height * 0.35.
Definition depthNorm : R := Q2R (depth s) / 100.

(** The body of [for (let i = 0; i < samples; i++)], local by local. *)
Definition t (i : nat) : R := (INR i / INR samples) * duration.
Definition x (i : nat) : R := (INR i / INR samples) * width.

(** Carrier signal. *)
Definition carrierWave (i : nat) : R :=
  sin (2 * PI * Q2R (carrierFreq s) * t i).

(** LFO signal. *)
Definition lfoWave (i : nat) : R :=
  sin (2 * PI * Q2R (lfoRate s) * t i).

Definition lfoModulator (i : nat) : R :=
  1 - depthNorm + depthNorm * (lfoWave i + 1) / 2.

(** Modulated signal: the factor [carrierWave * lfoModulator] of [y], the
    sample value before it is scaled to the canvas. *)
Definition modulated (i : nat) : R := carrierWave i * lfoModulator i.

Definition y (i : nat) : R := centerY - modulated i * amplitude.

(** [if (i === 0) ctx.moveTo(x, y) else ctx.lineTo(x, y)]. *)
Definition plot (i : nat) : PathCommand :=
  if Nat.eqb i 0 then moveTo (x i) (y i) else lineTo (x i) (y i).

Definition waveformPath : list PathCommand := map plot (seq 0 samples).

End Waveform.

(** The path [drawWaveform] strokes, or [None] when it returns early
    ([if (!canvas) return], [if (!ctx) return]).  The background, the grid
    and the stroke styles are left out. *)
Definition drawWaveform (canvas : option Canvas) (s : State)
  : option (list PathCommand) :=
  match canvas with
  | None => None
  | Some c =>
      if context2d c
      then Some (waveformPath s (rect_width c) (rect_height c))
      else None
  end.

(** *** The audio handlers *)

Inductive Exception : Type :=
| InvalidStateError   (* start() twice, stop() before start() *)
| TypeError           (* no AudioContext constructor; a call on a wrong object *)
| ResumeRejected.     (* the promise of resume() is rejected *)

(** How a handler ends: normally, or by an exception that leaves the
    handler with the state as it stands at the throw. *)
Inductive Completion (A : Type) : Type :=
| Normal (a : A) (s : State)
| Abrupt (e : Exception) (s : State).

Arguments Normal {A} a s.
Arguments Abrupt {A} e s.

Definition Action (A : Type) : Type := State -> Completion A.

Definition ret {A : Type} (a : A) : Action A := fun s => Normal a s.

Definition bind {A B : Type} (m : Action A) (k : A -> Action B) : Action B :=
  fun s =>
    match m s with
    | Normal a s' => k a s'
    | Abrupt e s' => Abrupt e s'
    end.

Definition throw {A : Type} (e : Exception) : Action A := fun s => Abrupt e s.
Definition gets {A : Type} (f : State -> A) : Action A := fun s => Normal (f s) s.
Definition modify (f : State -> State) : Action unit := fun s => Normal tt (f s).

Declare Scope action_scope.
Delimit Scope action_scope with action.
Notation "v <- m ;; k" := (bind m (fun v => k))
  (at level 61, m at next level, right associativity) : action_scope.
Notation "m ;; k" := (bind m (fun _ => k))
  (at level 61, right associativity) : action_scope.

Local Open Scope action_scope.

(** Replace the node at position [r]; no position, no change. *)
Fixpoint update (r : NodeRef) (n : AudioNode) (l : list AudioNode) : list AudioNode :=
  match l, r with
  | [], _ => []
  | _ :: l', O => n :: l'
  | m :: l', S r' => m :: update r' n l'
  end.

(** A new node object; its reference is returned. *)
Definition alloc (n : AudioNode) : Action NodeRef :=
  fun s => Normal (List.length (nodes s)) (set_nodes (nodes s ++ [n]) s).

(** [ctx.createOscillator()]: 440 Hz, sine, not started. *)
Definition createOscillator : Action NodeRef :=
  alloc (Oscillator {| frequency := 440; osc_type := "sine"; status := Unstarted |}).

(** [ctx.createGain()]: unit gain. *)
Definition createGain : Action NodeRef :=
  alloc (Gain {| gain := 1 |}).

(** The [TypeError] cases below stand for calls TypeScript's types rule
    out (a reference that is not to an object of the expected class). *)

(** [node.frequency.value = v] and [node.frequency.setValueAtTime(v, now)]. *)
Definition setFrequency (r : NodeRef) (v : Q) : Action unit :=
  fun s =>
    match nth_error (nodes s) r with
    | Some (Oscillator o) =>
        Normal tt (set_nodes
          (update r (Oscillator {| frequency := v; osc_type := osc_type o;
                                   status := status o |}) (nodes s)) s)
    | _ => Abrupt TypeError s
    end.

(** [node.type = v]. *)
Definition setType (r : NodeRef) (v : string) : Action unit :=
  fun s =>
    match nth_error (nodes s) r with
    | Some (Oscillator o) =>
        Normal tt (set_nodes
          (update r (Oscillator {| frequency := frequency o; osc_type := v;
                                   status := status o |}) (nodes s)) s)
    | _ => Abrupt TypeError s
    end.

(** [node.gain.value = v] and [node.gain.setValueAtTime(v, now)]. *)
Definition setGain (r : NodeRef) (v : Q) : Action unit :=
  fun s =>
    match nth_error (nodes s) r with
    | Some (Gain _) =>
        Normal tt (set_nodes (update r (Gain {| gain := v |}) (nodes s)) s)
    | _ => Abrupt TypeError s
    end.

(** [node.start()]. *)
Definition start (r : NodeRef) : Action unit :=
  fun s =>
    match nth_error (nodes s) r with
    | Some (Oscillator o) =>
        match status o with
        | Unstarted =>
            Normal tt (set_nodes
              (update r (Oscillator {| frequency := frequency o;
                                       osc_type := osc_type o;
                                       status := Sounding |}) (nodes s)) s)
        | _ => Abrupt InvalidStateError s
        end
    | _ => Abrupt TypeError s
    end.

(** [node.stop()]. *)
Definition stop (r : NodeRef) : Action unit :=
  fun s =>
    match nth_error (nodes s) r with
    | Some (Oscillator o) =>
        match status o with
        | Unstarted => Abrupt InvalidStateError s
        | _ =>
            Normal tt (set_nodes
              (update r (Oscillator {| frequency := frequency o;
                                       osc_type := osc_type o;
                                       status := Stopped |}) (nodes s)) s)
        end
    | _ => Abrupt TypeError s
    end.

(** [source.connect(target)], recorded in the context of [audioContextRef]. *)
Definition connect (source : NodeRef) (target : Endpoint) : Action unit :=
  fun s =>
    match audioContextRef s with
    | Some c =>
        Normal tt (set_audioContextRef
          (Some {| ctx_state := ctx_state c;
                   connections := connections c ++ [(source, target)] |}) s)
    | None => Abrupt TypeError s
    end.

(** What the browser decides when [playSound] runs. *)
Record Browser : Type := mkBrowser {
  (** the state of a new [AudioContext]; [None]: there is no constructor *)
  newAudioContext : option ContextState;
  (** whether the promise of [resume()] is fulfilled *)
  resumeFulfilled : bool
}.

(** [if (!audioContextRef.current) audioContextRef.current = new (...)()]. *)
Definition createContext (b : Browser) : Action unit :=
  cur <- gets audioContextRef ;;
  match cur with
  | Some _ => ret tt
  | None =>
      match newAudioContext b with
      | Some st =>
          modify (set_audioContextRef (Some {| ctx_state := st; connections := [] |}))
      | None => throw TypeError
      end
  end.

(** [if (audioContextRef.current.state === 'suspended') await ...resume()].
    The handler is taken to run to its end once started: nothing is
    interleaved at the [await]. *)
Definition resumeContext (b : Browser) : Action unit :=
  cur <- gets audioContextRef ;;
  match cur with
  | Some c =>
      match ctx_state c with
      | suspended =>
          if resumeFulfilled b
          then modify (set_audioContextRef
                 (Some {| ctx_state := running; connections := connections c |}))
          else throw ResumeRejected
      | _ => ret tt
      end
  | None => throw TypeError
  end.

Definition playSound (b : Browser) : Action unit :=
  playing <- gets isPlaying ;;
  if playing : bool then ret tt else
  (* Create or resume audio context *)
  createContext b ;;
  resumeContext b ;;
  (* Create carrier oscillator *)
  oscillator <- createOscillator ;;
  f <- gets carrierFreq ;;
  setFrequency oscillator f ;;
  setType oscillator "sine" ;;
  (* Create LFO *)
  lfoOscillator <- createOscillator ;;
  r <- gets lfoRate ;;
  setFrequency lfoOscillator r ;;
  setType lfoOscillator "sine" ;;
  (* Create gain nodes *)
  gainNode <- createGain ;;
  setGain gainNode 0.3 ;;
  lfoGain <- createGain ;;
  d <- gets depth ;;
  setGain lfoGain ((d / 100) * 0.3)%Q ;;
  (* Connect nodes *)
  connect lfoOscillator (Input lfoGain) ;;
  connect lfoGain (GainParam gainNode) ;;
  connect oscillator (Input gainNode) ;;
  connect gainNode Destination ;;
  (* Store references *)
  modify (set_oscillatorRef (Some oscillator)) ;;
  modify (set_lfoOscillatorRef (Some lfoOscillator)) ;;
  modify (set_gainNodeRef (Some gainNode)) ;;
  modify (set_lfoGainRef (Some lfoGain)) ;;
  (* Start *)
  start oscillator ;;
  start lfoOscillator ;;
  modify (setIsPlaying true).

Definition stopSound : Action unit :=
  osc <- gets oscillatorRef ;;
  match osc with
  | Some r => stop r ;; modify (set_oscillatorRef None)
  | None => ret tt
  end ;;
  lfo <- gets lfoOscillatorRef ;;
  match lfo with
  | Some r => stop r ;; modify (set_lfoOscillatorRef None)
  | None => ret tt
  end ;;
  modify (setIsPlaying false).

(** Update audio parameters in real-time: the effect that runs after
    [carrierFreq], [lfoRate] or [depth] changed. *)
Definition updateAudioParams : Action unit :=
  osc <- gets oscillatorRef ;;
  lfo <- gets lfoOscillatorRef ;;
  lfoGain <- gets lfoGainRef ;;
  match osc, lfo, lfoGain with
  | Some o, Some l, Some g =>
      f <- gets carrierFreq ;;
      setFrequency o f ;;
      r <- gets lfoRate ;;
      setFrequency l r ;;
      d <- gets depth ;;
      setGain g ((d / 100) * 0.3)%Q
  | _, _, _ => ret tt
  end.

(** The three range inputs: [onChange] sets the cell, then the effect runs. *)
Definition onCarrierFreqChange (v : Q) : Action unit :=
  modify (setCarrierFreq v) ;; updateAudioParams.

Definition onLfoRateChange (v : Q) : Action unit :=
  modify (setLfoRate v) ;; updateAudioParams.

Definition onDepthChange (v : Q) : Action unit :=
  modify (setDepth v) ;; updateAudioParams.

(** The state a handler leaves behind, however it ends. *)
Definition final {A : Type} (c : Completion A) : State :=
  match c with
  | Normal _ s => s
  | Abrupt _ s => s
  end.

(** What can happen to a mounted component.  The range inputs hand over
    values between their [min] and [max]. *)
Inductive fires : State -> State -> Prop :=
| fires_play b s :
    fires s (final (playSound b s))
| fires_stop s :
    fires s (final (stopSound s))
| fires_carrier v s :
    (200 <= v <= 1000)%Q -> fires s (final (onCarrierFreqChange v s))
| fires_rate v s :
    (0.5 <= v <= 200)%Q -> fires s (final (onLfoRateChange v s))
| fires_depth v s :
    (0 <= v <= 100)%Q -> fires s (final (onDepthChange v s)).

Inductive reachable : State -> Prop :=
| reachable_mount : reachable mount
| reachable_fires s s' : reachable s -> fires s s' -> reachable s'.

(** *** Invariants of the audio state *)

Section Invariants.

Local Open Scope nat_scope.

(** A reference to an oscillator that has been started. *)
Definition started (l : list AudioNode) (r : NodeRef) : Prop :=
  exists o, nth_error l r = Some (Oscillator o) /\ status o <> Unstarted.

Definition isGain (l : list AudioNode) (r : NodeRef) : Prop :=
  exists g, nth_error l r = Some (Gain g).

(** What a store of nodes keeps as it grows and its nodes are written:
    started oscillators and gain nodes stay what they are. *)
Definition refines (l l' : list AudioNode) : Prop :=
  (forall r, started l r -> started l' r) /\
  (forall r, isGain l r -> isGain l' r).

(** A reference to an oscillator that has been stopped. *)
Definition halted (l : list AudioNode) (r : NodeRef) : Prop :=
  exists o, nth_error l r = Some (Oscillator o) /\ status o = Stopped.

(** The invariant of the boxes: an oscillator box holds a started
    oscillator, the LFO gain box a gain node. *)
Record wellFormed (s : State) : Prop := mkWellFormed {
  wf_oscillator : forall r, oscillatorRef s = Some r -> started (nodes s) r;
  wf_lfoOscillator : forall r, lfoOscillatorRef s = Some r -> started (nodes s) r;
  wf_lfoGain : forall r, lfoGainRef s = Some r -> isGain (nodes s) r
}.

(** A step that leaves the three boxes alone and refines the nodes. *)
Definition evolves (s s' : State) : Prop :=
  oscillatorRef s' = oscillatorRef s /\
  lfoOscillatorRef s' = lfoOscillatorRef s /\
  lfoGainRef s' = lfoGainRef s /\
  refines (nodes s) (nodes s').

Definition stable {A : Type} (m : Action A) : Prop :=
  forall s, evolves s (final (m s)).

(** The state [playSound] ends in when it goes through, written out: the
    context [c] running and wired, four new nodes after the [n] old ones,
    the boxes on them, both oscillators started. *)
Definition wired (c : AudioContext) (n : NodeRef) : AudioContext :=
  {| ctx_state := match ctx_state c with suspended => running | st => st end;
     connections := connections c ++
       [ (n + 1, Input (n + 3)); (n + 3, GainParam (n + 2));
         (n, Input (n + 2)); (n + 2, Destination) ] |}.

Definition sounding (c : AudioContext) (s : State) : State :=
  let n := List.length (nodes s) in
  {| carrierFreq := carrierFreq s; lfoRate := lfoRate s; depth := depth s;
     isPlaying := true;
     audioContextRef := Some (wired c n);
     oscillatorRef := Some n;
     lfoOscillatorRef := Some (n + 1);
     gainNodeRef := Some (n + 2);
     lfoGainRef := Some (n + 3);
     nodes := nodes s ++
       [ Oscillator {| frequency := carrierFreq s; osc_type := "sine";
                       status := Sounding |};
         Oscillator {| frequency := lfoRate s; osc_type := "sine";
                       status := Sounding |};
         Gain {| gain := 0.3 |};
         Gain {| gain := (depth s / 100 * 0.3)%Q |} ] |}.

End Invariants.

(** *** A sample run *)

(** A browser whose new context starts suspended and resumes on request;
    the component after a press on Play, and after a press on Stop. *)
Definition browser : Browser :=
  {| newAudioContext := Some suspended; resumeFulfilled := true |}.

Definition playing : State := final (playSound browser mount).

Definition silenced : State := final (stopSound playing).

(** *** The states of the audio graph *)

Section Coherence.

Local Open Scope nat_scope.

(** Every oscillator of the store has been stopped. *)
Definition quiet (l : list AudioNode) : Prop :=
  forall r o, nth_error l r = Some (Oscillator o) -> status o = Stopped.

(** The component is silent: not playing, both oscillator boxes empty, no
    oscillator sounding. *)
Definition silent (s : State) : Prop :=
  isPlaying s = false /\ oscillatorRef s = None /\ lfoOscillatorRef s = None /\
  quiet (nodes s).

(** The audio graph stands on the nodes [o], [l], [g], [lg]: they are what
    the four boxes hold, the two oscillators sound at [fc] and [fl] Hz, the
    LFO gain is [dg], and every other oscillator has been stopped. *)
Definition graphOn (fc fl dg : Q) (o l g lg : NodeRef) (s : State) : Prop :=
  isPlaying s = true /\
  oscillatorRef s = Some o /\ lfoOscillatorRef s = Some l /\
  gainNodeRef s = Some g /\ lfoGainRef s = Some lg /\
  o <> l /\ g <> lg /\
  nth_error (nodes s) o =
    Some (Oscillator {| frequency := fc; osc_type := "sine";
                        status := Sounding |}) /\
  nth_error (nodes s) l =
    Some (Oscillator {| frequency := fl; osc_type := "sine";
                        status := Sounding |}) /\
  nth_error (nodes s) g = Some (Gain {| gain := 0.3 |}) /\
  nth_error (nodes s) lg = Some (Gain {| gain := dg |}) /\
  (forall r n, r <> o -> r <> l -> nth_error (nodes s) r = Some (Oscillator n) ->
               status n = Stopped).

(** The component is live: the graph stands and runs at the values of the
    three sliders. *)
Definition liveOn (o l g lg : NodeRef) (s : State) : Prop :=
  graphOn (carrierFreq s) (lfoRate s) (depth s / 100 * 0.3)%Q o l g lg s.

Definition coherent (s : State) : Prop :=
  silent s \/ exists o l g lg, liveOn o l g lg s.

(** The context [playSound] works with: the one of the box, or a new one. *)
Definition contextFor (b : Browser) (s : State) : option AudioContext :=
  match audioContextRef s with
  | Some c => Some c
  | None =>
      match newAudioContext b with
      | Some st => Some {| ctx_state := st; connections := [] |}
      | None => None
      end
  end.

(** Whether [resume()] is called on [c] and rejected. *)
Definition resumeFails (b : Browser) (c : AudioContext) : bool :=
  match ctx_state c with
  | suspended => negb (resumeFulfilled b)
  | _ => false
  end.

(** The three slider cells. *)
Definition sliders (s : State) : Q * Q * Q := (carrierFreq s, lfoRate s, depth s).

(** The values the three range inputs can hand over. *)
Definition inRange (s : State) : Prop :=
  (200 <= carrierFreq s <= 1000)%Q /\ (0.5 <= lfoRate s <= 200)%Q /\
  (0 <= depth s <= 100)%Q.

(** One press on Play followed by one on Stop. *)
Definition cycle (b : Browser) (s : State) : State :=
  final (stopSound (final (playSound b s))).

Definition connectionCount (s : State) : nat :=
  match audioContextRef s with
  | Some c => List.length (connections c)
  | None => 0
  end.

(** What [stopSound] leaves alone. *)
Definition keeps (s s' : State) : Prop :=
  sliders s' = sliders s /\ audioContextRef s' = audioContextRef s /\
  gainNodeRef s' = gainNodeRef s /\ lfoGainRef s' = lfoGainRef s /\
  List.length (nodes s') = List.length (nodes s) /\
  (forall r g, nth_error (nodes s) r = Some (Gain g) ->
               nth_error (nodes s') r = Some (Gain g)).

End Coherence.

(** Whether a path command is a [lineTo]. *)
Definition isLineTo (p : PathCommand) : Prop :=
  match p with lineTo _ _ => True | moveTo _ _ => False end.

(** A browser without an [AudioContext] constructor, and the playing
    component after the rate slider is moved to 50 Hz. *)
Definition noAudio : Browser :=
  {| newAudioContext := None; resumeFulfilled := true |}.

Definition retuned : State := final (onLfoRateChange 50 playing).

End LFOEffects.

(* ================================================================= *)
(** ** HomePage.tsx *)

Module HomePage.

Local Open Scope R_scope.

(** The decoration of the hero: [[...Array(20)].map((_, i) => ...)], each bar
    with [height: ${Math.sin(i * 0.5) * 30 + 50}%] and
    [animationDelay: ${i * 0.1}s]. *)
Record WaveBar : Type := mkWaveBar {
  key : nat;
  height : R;           (* percent *)
  animationDelay : R    (* seconds *)
}.

Definition waveBar (i : nat) : WaveBar :=
  {| key := i;
     height := sin (INR i * 0.5) * 30 + 50;
     animationDelay := INR i * 0.1 |}.

Definition waveBars : list WaveBar := map waveBar (seq 0 20).

End HomePage.

(* ================================================================= *)
(** ** Properties of the biquad visualizer *)

Module BiquadVisualizerProofs.

Import BiquadVisualizer.

Lemma currentIndex_in_range : (currentIndex < List.length x)%nat.
Proof. unfold currentIndex, x; simpl; lia. Qed.

Lemma x_n_value : x_n = 1.0%Q.
Proof. reflexivity. Qed.

Lemma steps_length (s : State) : List.length (steps s) = 7%nat.
Proof. reflexivity. Qed.

Lemma advance_step_mod7 (s : State) (prev : nat) :
  advance_step s prev = ((prev + 1) mod 7)%nat.
Proof. unfold advance_step; now rewrite steps_length. Qed.

Lemma advance_step_bound (s : State) (prev : nat) :
  (advance_step s prev < 7)%nat.
Proof. rewrite advance_step_mod7; apply Nat.mod_upper_bound; discriminate. Qed.

Lemma step_tick (s : State) : step (tick s) = ((step s + 1) mod 7)%nat.
Proof. unfold tick; simpl; apply advance_step_mod7. Qed.

(** From step 0, [k] firings of the timer lead to step [k mod 7]. *)
Lemma step_iter_tick (k : nat) (s : State) :
  step s = 0%nat -> step (Nat.iter k tick s) = (k mod 7)%nat.
Proof.
  intros H0; induction k as [|k IH].
  - exact H0.
  - change (Nat.iter (S k) tick s) with (tick (Nat.iter k tick s)).
    rewrite step_tick, IH, Nat.Div0.add_mod_idemp_l.
    now rewrite Nat.add_1_r.
Qed.

Example tick_wraps : step (tick (setStep 6 mount)) = 0%nat.
Proof. reflexivity. Qed.

Example currentStep_mount :
  option_map title (currentStep mount) = Some "Step 1: Input Signal"%string.
Proof. reflexivity. Qed.

(** No event writes the delay cells. *)
Lemma fires_delayLine (s s' : State) : fires s s' -> delayLine s' = delayLine s.
Proof. intros H; destruct H; reflexivity. Qed.

Lemma reachable_delayLine (s : State) :
  reachable s -> delayLine s = delayLine mount.
Proof.
  induction 1 as [|s s' _ IH Hf]; [reflexivity|].
  now rewrite (fires_delayLine _ _ Hf).
Qed.

Lemma fires_step_bound (s s' : State) :
  fires s s' -> (step s < 7)%nat -> (step s' < 7)%nat.
Proof.
  intros H Hs; destruct H as [s _|s|s|s idx Hidx|s v _]; simpl; try assumption.
  - apply advance_step_bound.
  - lia.
Qed.

Lemma reachable_step_bound (s : State) : reachable s -> (step s < 7)%nat.
Proof.
  induction 1 as [|s s' _ IH Hf]; [simpl; lia|].
  exact (fires_step_bound _ _ Hf IH).
Qed.

(** In every reachable state [steps[step]] is defined. *)
Lemma reachable_currentStep (s : State) :
  reachable s -> exists d, currentStep s = Some d.
Proof.
  intros Hr; unfold currentStep.
  destruct (nth_error (steps s) (step s)) as [d|] eqn:E; [now exists d|].
  apply nth_error_None in E. rewrite steps_length in E.
  pose proof (reachable_step_bound s Hr); lia.
Qed.

(** C4.  With the coefficients [b0 = 0.067], [b1 = 0.134], [b2 = 0.067],
    [a1 = -1.143], [a2 = 0.413] and the values [x[n] = 1.0], [x1 = 0.5],
    [x2 = 0], [y1 = 0.3], [y2 = 0.1] of the component, the feedforward
    expression is 0.134, the feedback expression is 0.3016 and the output
    [yn], which is their sum, is 0.4356, in exact rational arithmetic; the
    same holds in every reachable state. *)
Theorem biquad_example_output :
  (b0 == 0.067 /\ b1 == 0.134 /\ b2 == 0.067 /\ a1 == -1.143 /\ a2 == 0.413)%Q /\
  (x_n == 1.0 /\ x1 mount == 0.5 /\ x2 mount == 0 /\
   y1 mount == 0.3 /\ y2 mount == 0.1)%Q /\
  (feedforward mount == 0.134)%Q /\
  (feedback mount == 0.3016)%Q /\
  (yn mount == 0.4356)%Q /\
  (forall s, yn s == feedforward s + feedback s)%Q /\
  (forall s, reachable s ->
     feedforward s == 0.134 /\ feedback s == 0.3016 /\ yn s == 0.4356)%Q.
Proof.
  split; [repeat split|]. split; [repeat split|].
  do 3 (split; [reflexivity|]).
  split.
  - intros s; unfold yn, feedforward, feedback; ring.
  - intros s Hr.
    pose proof (reachable_delayLine s Hr) as E; injection E as E1 E2 E3 E4.
    unfold feedforward, feedback, yn; rewrite E1, E2, E3, E4.
    repeat split.
Qed.

(** C5.  The step machine starts at [step = 0] with [isPlaying = false];
    a firing of the timer maps [step] to [(step + 1) mod 7], where 7 is the
    length of [steps]; [step] stays in 0..6 in every reachable state; and from
    [step = 0] seven firings lead back to [step = 0], no fewer do. *)
Theorem step_machine_cycle :
  step mount = 0%nat /\ isPlaying mount = false /\
  (forall s, List.length (steps s) = 7%nat) /\
  (forall s, step (tick s) = ((step s + 1) mod 7)%nat) /\
  (forall s, (step (tick s) < 7)%nat) /\
  (forall s, reachable s -> (step s < 7)%nat) /\
  (forall s, step s = 0%nat -> step (Nat.iter 7 tick s) = 0%nat) /\
  (forall s k, step s = 0%nat -> (0 < k < 7)%nat ->
     step (Nat.iter k tick s) <> 0%nat).
Proof.
  split; [reflexivity|]. split; [reflexivity|].
  split; [exact steps_length|]. split; [exact step_tick|].
  split; [intros s; apply advance_step_bound|].
  split; [exact reachable_step_bound|].
  split.
  - intros s H0; now rewrite (step_iter_tick 7 s H0).
  - intros s k H0 Hk; rewrite (step_iter_tick k s H0).
    rewrite Nat.mod_small; lia.
Qed.

(** C7.  [advance(state, newX, newY)] returns the state whose [x2] is the old
    [x1], whose [x1] is [newX], whose [y2] is the old [y1] and whose [y1] is
    [newY]; so advancing by [(x, y)] and then by [(x', y')] gives, from any
    state, the state with [x2 = x], [x1 = x'], [y2 = y], [y1 = y']. *)
Theorem advance_twice (s : Engine.BiquadState) (x y x' y' : Q) :
  Engine.x2 (Engine.advance s x y) = Engine.x1 s /\
  Engine.x1 (Engine.advance s x y) = x /\
  Engine.y2 (Engine.advance s x y) = Engine.y1 s /\
  Engine.y1 (Engine.advance s x y) = y /\
  Engine.advance (Engine.advance s x y) x' y' =
    {| Engine.x1 := x'; Engine.x2 := x; Engine.y1 := y'; Engine.y2 := y |}.
Proof. repeat split. Qed.

(** C10.  Selecting step indicator [i] sets [step = i] and
    [isPlaying = false]; Reset sets [step = 0] and [isPlaying = false]; both
    leave [speed] as it was. *)
Theorem manual_step_halts_autoplay (s : State) (i : nat) :
  (step (onSelectStep i s) = i /\
   isPlaying (onSelectStep i s) = false /\
   speed (onSelectStep i s) = speed s) /\
  (step (onReset s) = 0%nat /\
   isPlaying (onReset s) = false /\
   speed (onReset s) = speed s).
Proof. repeat split. Qed.

(** *** Further properties of the component *)

(** X1.  In every reachable state [steps[step]] is defined, so the render
    never reads [title] or [highlight] of [undefined]; and the descriptor,
    its equation included, is the one of the first render. *)
Theorem render_has_step (s : State) :
  reachable s ->
  exists d, currentStep s = Some d /\ nth_error (steps mount) (step s) = Some d.
Proof.
  intros Hr.
  destruct (reachable_currentStep s Hr) as (d & Hd); exists d; split; [exact Hd|].
  unfold currentStep in Hd.
  pose proof (reachable_delayLine s Hr) as E; injection E as E1 E2 E3 E4.
  revert Hd; unfold steps, feedforward, feedback, yn; rewrite E1, E2, E3, E4.
  auto.
Qed.

Lemma render_has_step_witness :
  exists d, currentStep (onSelectStep 4 mount) = Some d /\
            nth_error (steps mount) 4 = Some d.
Proof.
  apply (render_has_step (onSelectStep 4 mount)).
  apply (reachable_fires _ _ reachable_mount), fires_select.
  simpl; lia.
Defined.

(** X2.  No event (timer, Play/Pause, Reset, step button, speed select)
    changes [x1], [x2], [y1], [y2], nor the output [yn] shown. *)
Theorem events_keep_delay_line (s s' : State) :
  fires s s' ->
  x1 s' = x1 s /\ x2 s' = x2 s /\ y1 s' = y1 s /\ y2 s' = y2 s /\ yn s' = yn s.
Proof. intros H; destruct H; repeat split. Qed.

Lemma events_keep_delay_line_witness :
  (x1 (tick (onPlayPause mount)) = x1 (onPlayPause mount) /\
   x2 (tick (onPlayPause mount)) = x2 (onPlayPause mount) /\
   y1 (tick (onPlayPause mount)) = y1 (onPlayPause mount) /\
   y2 (tick (onPlayPause mount)) = y2 (onPlayPause mount) /\
   yn (tick (onPlayPause mount)) = yn (onPlayPause mount))%Q.
Proof.
  apply (events_keep_delay_line (onPlayPause mount) (tick (onPlayPause mount))).
  apply fires_tick; reflexivity.
Defined.

(** X3.  [speed], the period of the timer, is always one of the three
    values the select offers. *)
Theorem speed_is_an_option (s : State) : reachable s -> In (speed s) speedOptions.
Proof.
  induction 1 as [|s s' _ IH F].
  - simpl; auto.
  - destruct F; simpl; auto.
Qed.

Lemma speed_is_an_option_witness : In (speed (onSpeedChange 500 mount)) speedOptions.
Proof.
  apply (speed_is_an_option (onSpeedChange 500 mount)).
  apply (reachable_fires _ _ reachable_mount), fires_speed.
  simpl; auto.
Defined.

(** X4.  Pressing Play/Pause twice gives back the state. *)
Theorem play_pause_twice (s : State) : onPlayPause (onPlayPause s) = s.
Proof. destruct s; unfold onPlayPause; simpl; now rewrite negb_involutive. Qed.

Lemma tick_iter_frame (k : nat) (s : State) :
  Nat.iter k tick s = setStep (step (Nat.iter k tick s)) s.
Proof.
  induction k as [|k IH]; [now destruct s|].
  change (Nat.iter (S k) tick s) with (tick (Nat.iter k tick s)).
  rewrite IH at 1. reflexivity.
Qed.

(** X5.  From any step in 0..6, seven firings of the timer restore the whole
    state, not only the step. *)
Theorem seven_ticks_restore (s : State) :
  (step s < 7)%nat -> Nat.iter 7 tick s = s.
Proof.
  intros H. rewrite tick_iter_frame.
  assert (E : step (Nat.iter 7 tick s) = step s).
  { destruct s as [st p sp a b c d]; simpl in *.
    do 7 (destruct st as [|st]; [reflexivity|]); lia. }
  rewrite E; now destruct s.
Qed.

Lemma seven_ticks_restore_witness :
  Nat.iter 7 tick (setStep 3 mount) = setStep 3 mount.
Proof.
  apply (seven_ticks_restore (setStep 3 mount)).
  simpl; lia.
Defined.

(** X6.  Reset brings a reachable component back to its first render, up
    to the speed chosen. *)
Theorem reset_restores_mount (s : State) :
  reachable s -> onReset s = setSpeed (speed s) mount.
Proof.
  intros Hr.
  pose proof (reachable_delayLine s Hr) as E; injection E as E1 E2 E3 E4.
  destruct s; simpl in *; subst; reflexivity.
Qed.

Lemma reset_restores_mount_witness :
  onReset (onSpeedChange 500 (onSelectStep 4 mount)) = setSpeed 500 mount.
Proof.
  apply (reset_restores_mount (onSpeedChange 500 (onSelectStep 4 mount))).
  apply (reachable_fires (onSelectStep 4 mount)).
  - apply (reachable_fires _ _ reachable_mount), fires_select; simpl; lia.
  - apply fires_speed; simpl; auto.
Defined.

(** X7.  In a reachable state no group of the diagram is highlighted
    exactly at the last step ("Step 7: Update State", whose [highlight] is
    ["update"]), and the equation box is shown exactly at steps 4 to 6
    (indices 3 to 5). *)
Theorem highlight_by_step (s : State) :
  reachable s ->
  (highlighted s = [] <-> step s = 6%nat) /\
  (showsEquation s = true <-> (3 <= step s <= 5)%nat).
Proof.
  intros Hr; pose proof (reachable_step_bound s Hr) as Hb.
  unfold highlighted, showsEquation, currentStep.
  destruct s as [st p sp a b c d]; simpl in *.
  do 7 (destruct st as [|st];
        [simpl; split; split; intros H; try discriminate; try reflexivity; lia|]).
  lia.
Qed.

Lemma highlight_by_step_witness :
  (highlighted (onSelectStep 6 mount) = [] <-> step (onSelectStep 6 mount) = 6%nat) /\
  (showsEquation (onSelectStep 6 mount) = true <->
   (3 <= step (onSelectStep 6 mount) <= 5)%nat).
Proof.
  apply (highlight_by_step (onSelectStep 6 mount)).
  apply (reachable_fires _ _ reachable_mount), fires_select.
  simpl; lia.
Defined.

End BiquadVisualizerProofs.

(* ================================================================= *)
(** ** Properties of the LFO effects demo *)

Module LFOEffectsProofs.

Import LFOEffects.

(** *** Classification *)

Section Classification.

Local Open Scope Q_scope.

Lemma classify_tremolo (s : State) : classify s = Tremolo <-> lfoRate s < 20.
Proof.
  unfold classify, getEffectInfo.
  destruct (Qlt_le_dec (lfoRate s) 20) as [Hlt|Hge]; simpl.
  - tauto.
  - destruct (Qlt_le_dec (lfoRate s) 50); simpl;
      (split; [discriminate | intros Hlt; lra]).
Qed.

Lemma classify_transition (s : State) :
  classify s = Transition <-> 20 <= lfoRate s /\ lfoRate s < 50.
Proof.
  unfold classify, getEffectInfo.
  destruct (Qlt_le_dec (lfoRate s) 20) as [Hlt|Hge]; simpl.
  - split; [discriminate | intros [H _]; lra].
  - destruct (Qlt_le_dec (lfoRate s) 50) as [Hlt|Hge']; simpl.
    + tauto.
    + split; [discriminate | intros [_ H]; lra].
Qed.

Lemma classify_ring (s : State) :
  classify s = RingModulation <-> 50 <= lfoRate s.
Proof.
  unfold classify, getEffectInfo.
  destruct (Qlt_le_dec (lfoRate s) 20) as [Hlt|Hge]; simpl.
  - split; [discriminate | intros H; lra].
  - destruct (Qlt_le_dec (lfoRate s) 50) as [Hlt|Hge']; simpl.
    + split; [discriminate | intros H; lra].
    + tauto.
Qed.

(** Two states with the same rate are classified alike. *)
Lemma classify_rate_only (s s' : State) :
  lfoRate s == lfoRate s' -> classify s = classify s'.
Proof.
  intros E.
  destruct (classify s') eqn:C'.
  - apply classify_tremolo; apply classify_tremolo in C'; lra.
  - apply classify_transition; apply classify_transition in C'; lra.
  - apply classify_ring; apply classify_ring in C'; lra.
Qed.

(** The slider at a few rates. *)
Example classify_mount : classify mount = Tremolo.
Proof. reflexivity. Qed.

Example classify_19_5 : classify (setLfoRate 19.5 mount) = Tremolo.
Proof. reflexivity. Qed.

Example classify_20 : classify (setLfoRate 20 mount) = Transition.
Proof. reflexivity. Qed.

Example classify_49_5 : classify (setLfoRate 49.5 mount) = Transition.
Proof. reflexivity. Qed.

Example classify_50 : classify (setLfoRate 50 mount) = RingModulation.
Proof. reflexivity. Qed.

Example classify_200 : classify (setLfoRate 200 mount) = RingModulation.
Proof. reflexivity. Qed.

End Classification.

(** C1.  [classify] returns [Tremolo] exactly when the rate is below 20,
    [Transition] exactly when it is at least 20 and below 50, and
    [RingModulation] exactly when it is at least 50; a rate of 20 gives
    [Transition] and a rate of 50 gives [RingModulation]; the variant depends
    on [lfoRate] alone. *)
Theorem classify_by_rate :
  (forall s, classify s = Tremolo <-> lfoRate s < 20)%Q /\
  (forall s, classify s = Transition <-> 20 <= lfoRate s /\ lfoRate s < 50)%Q /\
  (forall s, classify s = RingModulation <-> 50 <= lfoRate s)%Q /\
  (forall s, lfoRate s == 20 -> classify s = Transition)%Q /\
  (forall s, lfoRate s == 50 -> classify s = RingModulation)%Q /\
  (forall s s', lfoRate s == lfoRate s' -> classify s = classify s')%Q.
Proof.
  split; [exact classify_tremolo|].
  split; [exact classify_transition|].
  split; [exact classify_ring|].
  split; [|split].
  - intros s E; apply classify_transition; lra.
  - intros s E; apply classify_ring; lra.
  - exact classify_rate_only.
Qed.

(** *** The waveform *)

Section WaveformFacts.

Local Open Scope R_scope.

Lemma INR_samples : INR samples = 2000.
Proof. unfold samples; rewrite INR_IZR_INZ; reflexivity. Qed.

Lemma duration_cases (s : State) : duration s = 1 \/ duration s = 0.1.
Proof. unfold duration; destruct (Qlt_le_dec (lfoRate s) 20); [left|right]; lra. Qed.

Lemma duration_pos (s : State) : 0 < duration s.
Proof. destruct (duration_cases s) as [E|E]; rewrite E; lra. Qed.

(** The left ends of [n] equal parts of a window of positive length [d]
    lie in [[0, d)]. *)
Lemma even_spacing (d : R) (n i : nat) :
  0 < d -> (i < n)%nat -> 0 <= INR i / INR n * d < d.
Proof.
  intros Hd Hi.
  pose proof (pos_INR i) as H0.
  assert (Hn : 0 < INR n) by (apply lt_0_INR; lia).
  apply lt_INR in Hi.
  assert (Hq : 0 <= INR i / INR n < 1).
  { split.
    - apply Rmult_le_pos; [assumption|].
      left; now apply Rinv_0_lt_compat.
    - apply (Rmult_lt_reg_r (INR n)); [assumption|].
      unfold Rdiv; rewrite Rmult_assoc, Rinv_l by lra; lra. }
  split; nra.
Qed.

Lemma t_range (s : State) (i : nat) :
  (i < samples)%nat -> 0 <= t s i < duration s.
Proof. intros Hi; apply even_spacing; [apply duration_pos | exact Hi]. Qed.

Lemma depthNorm_range (s : State) :
  (0 <= depth s <= 100)%Q -> 0 <= depthNorm s <= 1.
Proof.
  intros [Hlo Hhi]; unfold depthNorm.
  apply Qle_Rle in Hlo, Hhi.
  replace (Q2R 0) with 0 in Hlo by (unfold Q2R; simpl; lra).
  replace (Q2R 100) with 100 in Hhi by (unfold Q2R; simpl; lra).
  lra.
Qed.

Lemma depthNorm_zero (s : State) : (depth s == 0)%Q -> depthNorm s = 0.
Proof.
  intros E; unfold depthNorm; apply Qeq_eqR in E; rewrite E.
  unfold Q2R; simpl; lra.
Qed.

(** The unipolar envelope [1 - d + d * (w + 1) / 2] of a wave [w] in
    [[-1, 1]] stays between [1 - d] and 1. *)
Lemma envelope_range (d w : R) :
  0 <= d <= 1 -> -1 <= w <= 1 ->
  1 - d <= 1 - d + d * (w + 1) / 2 <= 1.
Proof. intros Hd Hw; split; nra. Qed.

Lemma lfoModulator_range (s : State) (i : nat) :
  (0 <= depth s <= 100)%Q -> 0 <= lfoModulator s i <= 1.
Proof.
  intros Hd; apply depthNorm_range in Hd.
  pose proof (envelope_range (depthNorm s) (lfoWave s i) Hd
                (SIN_bound _)) as H.
  unfold lfoModulator; lra.
Qed.

Lemma waveformPath_length (s : State) (w h : R) :
  List.length (waveformPath s w h) = samples.
Proof. unfold waveformPath; now rewrite length_map, length_seq. Qed.

Lemma waveformPath_nth (s : State) (w h : R) (i : nat) :
  (i < samples)%nat -> nth_error (waveformPath s w h) i = Some (plot s w h i).
Proof.
  intros Hi; unfold waveformPath.
  rewrite nth_error_map, nth_error_seq.
  destruct (Nat.ltb_spec i samples) as [_|Hge]; [reflexivity | lia].
Qed.

End WaveformFacts.

(** C2.  With a canvas that has a 2d context, [drawWaveform] plots exactly
    2000 samples; sample [i] (below 2000) is taken at the time
    [t = (i / 2000) * duration], which lies in [[0, duration)], where
    [duration] is the window the routine picks (1 s below 20 Hz, 0.1 s
    otherwise); its value is [sin(2 pi carrierFreq t)] times the envelope
    [1 - depth/100 + (depth/100) * (sin(2 pi lfoRate t) + 1) / 2], and it is
    plotted at [(i / 2000) * width] and [centerY - value * amplitude]. *)
Theorem waveform_samples (s : State) (c : Canvas) (i : nat) :
  context2d c = true ->
  (i < 2000)%nat ->
  exists path : list PathCommand,
    drawWaveform (Some c) s = Some path /\
    List.length path = 2000%nat /\
    nth_error path i =
      Some ((if Nat.eqb i 0 then moveTo else lineTo)
              (x (rect_width c) i) (y s (rect_height c) i)) /\
    (t s i = INR i / 2000 * duration s /\
     0 <= t s i < duration s /\
     modulated s i =
       sin (2 * PI * Q2R (carrierFreq s) * t s i) *
       (1 - Q2R (depth s) / 100 +
        Q2R (depth s) / 100 * (sin (2 * PI * Q2R (lfoRate s) * t s i) + 1) / 2) /\
     x (rect_width c) i = INR i / 2000 * rect_width c /\
     y s (rect_height c) i =
       rect_height c / 2 - modulated s i * (rect_height c * 0.35))%R.
Proof.
  intros Hctx Hi.
  exists (waveformPath s (rect_width c) (rect_height c)).
  split; [unfold drawWaveform; now rewrite Hctx|].
  split; [apply waveformPath_length|].
  split.
  - rewrite waveformPath_nth by exact Hi.
    unfold plot; now destruct (Nat.eqb i 0).
  - split; [unfold t; now rewrite INR_samples|].
    split; [now apply t_range|].
    split; [reflexivity|].
    split; [unfold x; now rewrite INR_samples | reflexivity].
Qed.

Lemma waveform_samples_witness :
  exists path : list PathCommand,
    drawWaveform (Some (mkCanvas 600 300 true)) mount = Some path /\
    List.length path = 2000%nat /\
    nth_error path 1 = Some (lineTo (x 600 1) (y mount 300 1)) /\
    (0 <= t mount 1 < duration mount)%R.
Proof.
  destruct (waveform_samples mount (mkCanvas 600 300 true) 1 eq_refl)
    as (path & Hdraw & Hlen & Hnth & _ & Ht & _).
  - lia.
  - exists path; repeat split; try assumption; apply Ht.
Defined.

(** C3.  With [depth] between 0 and 100, every sample value
    [carrierWave * lfoModulator] lies in [[-1, 1]]. *)
Theorem modulated_bounded (s : State) (i : nat) :
  (0 <= depth s <= 100)%Q -> (-1 <= modulated s i <= 1)%R.
Proof.
  intros Hd.
  pose proof (lfoModulator_range s i Hd) as He.
  pose proof (SIN_bound (2 * PI * Q2R (carrierFreq s) * t s i)) as Hc.
  unfold modulated, carrierWave.
  split; nra.
Qed.

Lemma modulated_bounded_witness : (-1 <= modulated mount 7 <= 1)%R.
Proof.
  apply (modulated_bounded mount 7).
  split; vm_compute; discriminate.
Defined.

(** C6.  With [depth = 0] the envelope is 1 and every sample value is the
    carrier, [sin(2 pi carrierFreq t)], whatever the carrier frequency. *)
Theorem zero_depth_is_carrier (s : State) (i : nat) :
  (depth s == 0)%Q ->
  (lfoModulator s i = 1 /\
   modulated s i = sin (2 * PI * Q2R (carrierFreq s) * t s i))%R.
Proof.
  intros E; apply depthNorm_zero in E.
  assert (H1 : lfoModulator s i = 1%R) by (unfold lfoModulator; rewrite E; lra).
  split; [exact H1|].
  unfold modulated, carrierWave; rewrite H1; ring.
Qed.

Lemma zero_depth_is_carrier_witness :
  (lfoModulator (setDepth 0 mount) 3 = 1 /\
   modulated (setDepth 0 mount) 3 =
     sin (2 * PI * Q2R 440 * t (setDepth 0 mount) 3))%R.
Proof.
  apply (zero_depth_is_carrier (setDepth 0 mount) 3).
  reflexivity.
Defined.

(** *** Further properties of the waveform *)

Section WaveformMore.

Local Open Scope R_scope.

(** X8.  With [depth] between 0 and 100, every plotted point lies on the
    canvas: [x] in [[0, width)] and [y] within 35% of the height around the
    centre line. *)
Theorem plot_within_canvas (s : State) (c : Canvas) (i : nat) :
  (0 <= depth s <= 100)%Q ->
  0 < rect_width c -> 0 <= rect_height c ->
  (i < samples)%nat ->
  0 <= x (rect_width c) i < rect_width c /\
  0.15 * rect_height c <= y s (rect_height c) i <= 0.85 * rect_height c.
Proof.
  intros Hd Hw Hh Hi; split.
  - unfold x; now apply even_spacing.
  - pose proof (lfoModulator_range s i Hd) as He.
    pose proof (SIN_bound (2 * PI * Q2R (carrierFreq s) * t s i)) as Hc.
    assert (Hm : -1 <= modulated s i <= 1)
      by (unfold modulated, carrierWave; split; nra).
    unfold y, centerY, amplitude; split; nra.
Qed.

Lemma plot_within_canvas_witness :
  0 <= x 600 1999 < 600 /\
  0.15 * 300 <= y mount 300 1999 <= 0.85 * 300.
Proof.
  apply (plot_within_canvas mount (mkCanvas 600 300 true) 1999).
  - split; vm_compute; discriminate.
  - simpl; lra.
  - simpl; lra.
  - unfold samples; lia.
Defined.

Lemma t_0 (s : State) : t s 0 = 0.
Proof. unfold t; simpl; lra. Qed.

(** X9.  The path [drawWaveform] strokes starts with one [moveTo], at the
    left end of the centre line, and continues with 1999 [lineTo]. *)
Theorem path_shape (s : State) (c : Canvas) :
  context2d c = true ->
  exists rest,
    drawWaveform (Some c) s = Some (moveTo 0 (rect_height c / 2) :: rest) /\
    List.length rest = 1999%nat /\
    Forall isLineTo rest.
Proof.
  intros Hc; unfold drawWaveform; rewrite Hc.
  unfold waveformPath, samples.
  change (seq 0 2000) with (0%nat :: seq 1 1999).
  rewrite map_cons.
  exists (map (plot s (rect_width c) (rect_height c)) (seq 1 1999)).
  split; [|split].
  - do 2 f_equal. unfold plot; simpl Nat.eqb; cbv iota.
    f_equal.
    + unfold x; simpl; lra.
    + unfold y, modulated, carrierWave, centerY.
      rewrite t_0, Rmult_0_r, sin_0; lra.
  - now rewrite length_map, length_seq.
  - apply Forall_forall; intros p Hp.
    apply in_map_iff in Hp; destruct Hp as (i & <- & Hi).
    apply in_seq in Hi; unfold plot.
    destruct (Nat.eqb_spec i 0); [lia | exact I].
Qed.

Lemma path_shape_witness :
  exists rest,
    drawWaveform (Some (mkCanvas 600 300 true)) mount =
      Some (moveTo 0 (300 / 2) :: rest) /\
    List.length rest = 1999%nat /\
    Forall isLineTo rest.
Proof.
  apply (path_shape mount (mkCanvas 600 300 true)).
  reflexivity.
Defined.



(** X11.  With [depth] between 0 and 100 the envelope stays between
    [1 - depth/100] and 1. *)
Theorem envelope_between (s : State) (i : nat) :
  (0 <= depth s <= 100)%Q ->
  1 - Q2R (depth s) / 100 <= lfoModulator s i <= 1.
Proof.
  intros Hd; apply depthNorm_range in Hd.
  exact (envelope_range (depthNorm s) (lfoWave s i) Hd (SIN_bound _)).
Qed.

Lemma envelope_between_witness :
  1 - Q2R 40 / 100 <= lfoModulator (setDepth 40 mount) 5 <= 1.
Proof.
  apply (envelope_between (setDepth 40 mount) 5).
  split; vm_compute; discriminate.
Defined.

(** X12.  For a rate the slider can give (0.5 to 200 Hz) the window drawn
    holds at least half an LFO cycle and at most 20. *)
Theorem window_cycles (s : State) :
  (0.5 <= lfoRate s <= 200)%Q ->
  0.5 <= Q2R (lfoRate s) * duration s <= 20.
Proof.
  intros [Hlo Hhi]; unfold duration.
  destruct (Qlt_le_dec (lfoRate s) 20) as [Hlt|Hge].
  - apply Qle_Rle in Hlo; apply Qlt_Rlt in Hlt.
    replace (Q2R 0.5) with 0.5 in Hlo by (unfold Q2R; simpl; lra).
    replace (Q2R 20) with 20 in Hlt by (unfold Q2R; simpl; lra).
    lra.
  - apply Qle_Rle in Hge, Hhi.
    replace (Q2R 200) with 200 in Hhi by (unfold Q2R; simpl; lra).
    replace (Q2R 20) with 20 in Hge by (unfold Q2R; simpl; lra).
    lra.
Qed.

Lemma window_cycles_witness :
  0.5 <= Q2R 200 * duration (setLfoRate 200 mount) <= 20.
Proof.
  apply (window_cycles (setLfoRate 200 mount)).
  split; vm_compute; discriminate.
Defined.

End WaveformMore.

(** *** The audio handlers *)

Section Audio.

Local Open Scope nat_scope.

Lemma nth_error_alloc (l l' : list AudioNode) (k : nat) :
  nth_error (l ++ l') (List.length l + k)%nat = nth_error l' k.
Proof. rewrite nth_error_app2 by lia. f_equal; lia. Qed.

Lemma update_alloc (l l' : list AudioNode) (k : nat) (n : AudioNode) :
  update (List.length l + k)%nat n (l ++ l') = l ++ update k n l'.
Proof. induction l as [|a l IH]; simpl; [reflexivity | now rewrite IH]. Qed.

Lemma nth_error_alloc0 (l l' : list AudioNode) :
  nth_error (l ++ l') (List.length l) = nth_error l' 0.
Proof. pose proof (nth_error_alloc l l' 0) as H; now rewrite Nat.add_0_r in H. Qed.

Lemma update_alloc0 (l l' : list AudioNode) (n : AudioNode) :
  update (List.length l) n (l ++ l') = l ++ update 0 n l'.
Proof. pose proof (update_alloc l l' 0 n) as H; now rewrite Nat.add_0_r in H. Qed.

(** Runs a handler on a state whose record is written out: unfold the
    handler and the primitives, bring the node references to the form
    [length ns + k] and the store to [ns ++ new], and look the new nodes up. *)
Ltac run_audio :=
  repeat
    (cbv beta iota delta
       [playSound stopSound updateAudioParams bind gets modify ret throw
        createContext resumeContext createOscillator createGain alloc
        setFrequency setType setGain start stop connect final
        set_nodes set_audioContextRef set_oscillatorRef set_lfoOscillatorRef
        set_gainNodeRef set_lfoGainRef setIsPlaying setCarrierFreq setLfoRate
        setDepth carrierFreq lfoRate depth isPlaying audioContextRef
        oscillatorRef lfoOscillatorRef gainNodeRef lfoGainRef nodes
        frequency osc_type status gain ctx_state connections];
     rewrite ?length_app, <- ?app_assoc, <- ?Nat.add_assoc;
     cbn [List.length Nat.add app];
     rewrite ?nth_error_alloc, ?update_alloc, ?nth_error_alloc0, ?update_alloc0;
     cbn [nth_error update app List.length Nat.add]).

Lemma nth_error_update (l : list AudioNode) (r r' : NodeRef) (n : AudioNode) :
  nth_error (update r n l) r' =
  if Nat.eqb r r' then option_map (fun _ => n) (nth_error l r)
  else nth_error l r'.
Proof.
  revert r r'; induction l as [|a l IH]; intros [|r] [|r']; simpl;
    try reflexivity.
  - now destruct (Nat.eqb r r').
  - apply IH.
Qed.

Lemma refines_refl (l : list AudioNode) : refines l l.
Proof. split; auto. Qed.

Lemma refines_trans (l1 l2 l3 : list AudioNode) :
  refines l1 l2 -> refines l2 l3 -> refines l1 l3.
Proof. intros [A B] [C D]; split; auto. Qed.

Lemma refines_update_oscillator (l : list AudioNode) (r : NodeRef)
      (o o' : OscillatorNode) :
  nth_error l r = Some (Oscillator o) ->
  (status o <> Unstarted -> status o' <> Unstarted) ->
  refines l (update r (Oscillator o') l).
Proof.
  intros Hr Hs; split; intros r' [n Hn].
  - destruct Hn as [Hn Hn']. unfold started. rewrite nth_error_update.
    destruct (Nat.eqb_spec r r') as [->|_].
    + rewrite Hr; simpl. exists o'; split; [reflexivity|].
      rewrite Hn in Hr; injection Hr as ->; auto.
    + now exists n.
  - unfold isGain. rewrite nth_error_update.
    destruct (Nat.eqb_spec r r') as [->|_]; [congruence | now exists n].
Qed.

Lemma refines_update_gain (l : list AudioNode) (r : NodeRef) (g g' : GainNode) :
  nth_error l r = Some (Gain g) ->
  refines l (update r (Gain g') l).
Proof.
  intros Hr; split; intros r' [n Hn].
  - destruct Hn as [Hn Hn']. unfold started. rewrite nth_error_update.
    destruct (Nat.eqb_spec r r') as [->|_]; [congruence | now exists n].
  - unfold isGain. rewrite nth_error_update.
    destruct (Nat.eqb_spec r r') as [->|_].
    + rewrite Hr; simpl; now exists g'.
    + now exists n.
Qed.

Lemma evolves_refl (s : State) : evolves s s.
Proof. repeat split; auto. Qed.

Lemma evolves_trans (s1 s2 s3 : State) :
  evolves s1 s2 -> evolves s2 s3 -> evolves s1 s3.
Proof.
  intros (A1 & A2 & A3 & A4) (B1 & B2 & B3 & B4).
  repeat split; try congruence; apply (refines_trans _ _ _ A4 B4).
Qed.

Lemma evolves_wellFormed (s s' : State) :
  evolves s s' -> wellFormed s -> wellFormed s'.
Proof.
  intros (E1 & E2 & E3 & [Rs Rg]) [W1 W2 W3]; split; intros r Hr.
  - apply Rs, W1; congruence.
  - apply Rs, W2; congruence.
  - apply Rg, W3; congruence.
Qed.

Lemma stable_bind {A B : Type} (m : Action A) (k : A -> Action B) :
  stable m -> (forall a, stable (k a)) -> stable (bind m k).
Proof.
  intros Hm Hk s; unfold bind.
  specialize (Hm s); destruct (m s) as [a s'|e s']; simpl in Hm.
  - exact (evolves_trans _ _ _ Hm (Hk a s')).
  - exact Hm.
Qed.

Lemma stable_ret {A : Type} (a : A) : stable (ret a).
Proof. intros s; apply evolves_refl. Qed.

Lemma stable_gets {A : Type} (f : State -> A) : stable (gets f).
Proof. intros s; apply evolves_refl. Qed.

Lemma stable_setFrequency (r : NodeRef) (v : Q) : stable (setFrequency r v).
Proof.
  intros s; unfold setFrequency.
  destruct (nth_error (nodes s) r) as [[o|g]|] eqn:E; simpl;
    try apply evolves_refl.
  repeat split; apply (refines_update_oscillator _ _ o); auto.
Qed.

Lemma stable_setGain (r : NodeRef) (v : Q) : stable (setGain r v).
Proof.
  intros s; unfold setGain.
  destruct (nth_error (nodes s) r) as [[o|g]|] eqn:E; simpl;
    try apply evolves_refl.
  repeat split; apply (refines_update_gain _ _ g); auto.
Qed.

Lemma stable_updateAudioParams : stable updateAudioParams.
Proof.
  unfold updateAudioParams.
  repeat (apply stable_bind; [apply stable_gets | intros ?]).
  destruct a as [o|]; [|apply stable_ret].
  destruct a0 as [l|]; [|apply stable_ret].
  destruct a1 as [g|]; [|apply stable_ret].
  repeat first
    [ apply stable_bind; [|intros ?]
    | apply stable_gets | apply stable_setFrequency | apply stable_setGain ].
Qed.

Lemma stable_modify (f : State -> State) :
  (forall s, evolves s (f s)) -> stable (modify f).
Proof. intros H s; apply H. Qed.

Lemma stable_sliders (v : Q) :
  stable (onCarrierFreqChange v) /\ stable (onLfoRateChange v) /\
  stable (onDepthChange v).
Proof.
  split; [|split];
    (apply stable_bind; [|intros _; apply stable_updateAudioParams]);
    apply stable_modify; intros s; repeat split; auto.
Qed.

(** [playSound] on a silent component: it fails before any node exists
    (no constructor, or [resume()] rejected), or it ends with the graph
    built, both oscillators started and [isPlaying] set. *)
Lemma playSound_silent (b : Browser) (s : State) :
  isPlaying s = false ->
  (exists e s', playSound b s = Abrupt e s' /\ evolves s s' /\
                isPlaying s' = false) \/
  (exists c, playSound b s = Normal tt (sounding c s)).
Proof.
  destruct s as [cf lr d p ctx o l g lg ns]; simpl; intros ->.
  destruct ctx as [[[] conns]|].
  - destruct (resumeFulfilled b) eqn:Hr.
    + right; exists (mkContext suspended conns).
      unfold sounding, wired; run_audio; rewrite Hr; run_audio; reflexivity.
    + left; do 2 eexists; run_audio; rewrite Hr.
      split; [reflexivity|]. repeat split; auto.
  - right; exists (mkContext running conns).
    unfold sounding, wired; run_audio; reflexivity.
  - right; exists (mkContext closed conns).
    unfold sounding, wired; run_audio; reflexivity.
  - destruct (newAudioContext b) as [[]|] eqn:Hn.
    + destruct (resumeFulfilled b) eqn:Hr.
      * right; exists (mkContext suspended []).
        unfold sounding, wired; run_audio; rewrite Hn; run_audio;
          rewrite Hr; run_audio; reflexivity.
      * left; do 2 eexists; run_audio; rewrite Hn; run_audio; rewrite Hr.
        split; [reflexivity|]. repeat split; auto.
    + right; exists (mkContext running []).
      unfold sounding, wired; run_audio; rewrite Hn; run_audio; reflexivity.
    + right; exists (mkContext closed []).
      unfold sounding, wired; run_audio; rewrite Hn; run_audio; reflexivity.
    + left; do 2 eexists; run_audio; rewrite Hn.
      split; [reflexivity|]. repeat split; auto.
Qed.

Lemma sounding_wellFormed (c : AudioContext) (s : State) :
  wellFormed (sounding c s).
Proof.
  split; simpl; intros r [= <-].
  - eexists; rewrite nth_error_alloc0; simpl; split; [reflexivity|discriminate].
  - eexists; rewrite nth_error_alloc; simpl; split; [reflexivity|discriminate].
  - eexists; rewrite nth_error_alloc; simpl; reflexivity.
Qed.

Lemma playSound_wellFormed (b : Browser) (s : State) :
  wellFormed s -> wellFormed (final (playSound b s)).
Proof.
  intros W. destruct (isPlaying s) eqn:P.
  - unfold playSound, bind, gets; rewrite P; exact W.
  - destruct (playSound_silent b s P) as [(e & s' & -> & E & _)|(c & ->)].
    + exact (evolves_wellFormed _ _ E W).
    + apply sounding_wellFormed.
Qed.

Lemma stop_started (r : NodeRef) (s : State) :
  started (nodes s) r ->
  exists s', stop r s = Normal tt s' /\ evolves s s'.
Proof.
  intros (o & H & S); unfold stop; rewrite H.
  destruct (status o) eqn:E; [congruence| |];
    (eexists; split; [reflexivity|]; repeat split; simpl;
     apply (refines_update_oscillator _ _ o); auto; discriminate).
Qed.

Lemma wellFormed_release (s : State) :
  wellFormed s ->
  wellFormed (set_oscillatorRef None s) /\
  wellFormed (set_lfoOscillatorRef None s) /\
  wellFormed (setIsPlaying false s).
Proof.
  intros [W1 W2 W3]; repeat split; simpl; auto; discriminate.
Qed.

Lemma bind_gets {A B : Type} (f : State -> A) (k : A -> Action B) (s : State) :
  bind (gets f) k s = k (f s) s.
Proof. reflexivity. Qed.

Lemma bind_normal {A B : Type} (m : Action A) (k : A -> Action B)
      (s s' : State) (a : A) :
  m s = Normal a s' -> bind m k s = k a s'.
Proof. intros E; unfold bind; now rewrite E. Qed.

(** One of the two blocks of [stopSound]: stop the oscillator of a box and
    empty the box. *)
Lemma release_block (box : State -> option NodeRef)
      (clear : option NodeRef -> State -> State) (s : State) :
  (forall r, box s = Some r -> started (nodes s) r) ->
  (forall s1, evolves s s1 -> wellFormed s -> wellFormed (clear None s1)) ->
  wellFormed s ->
  exists s',
    match box s with
    | Some r => bind (stop r) (fun _ => modify (clear None))
    | None => ret tt
    end s = Normal tt s' /\ wellFormed s'.
Proof.
  intros Hbox Hclear W.
  destruct (box s) as [r|].
  - destruct (stop_started r s (Hbox r eq_refl)) as (s1 & E & Ev).
    rewrite (bind_normal _ _ _ _ _ E).
    eexists; split; [reflexivity | now apply Hclear].
  - now exists s.
Qed.

(** In a well-formed state [stopSound] ends normally (both [stop()] calls
    are on started oscillators), with the two boxes empty. *)
Lemma stopSound_wellFormed (s : State) :
  wellFormed s ->
  exists s', stopSound s = Normal tt s' /\ wellFormed s'.
Proof.
  intros W; unfold stopSound.
  rewrite bind_gets.
  destruct (release_block oscillatorRef set_oscillatorRef s) as (sa & Ea & Wa);
    [ apply W
    | intros s1 Ev W1; apply wellFormed_release, (evolves_wellFormed _ _ Ev W1)
    | exact W | ].
  rewrite (bind_normal _ _ _ _ _ Ea), bind_gets.
  destruct (release_block lfoOscillatorRef set_lfoOscillatorRef sa)
    as (sb & Eb & Wb);
    [ apply Wa
    | intros s1 Ev W1; apply wellFormed_release, (evolves_wellFormed _ _ Ev W1)
    | exact Wa | ].
  rewrite (bind_normal _ _ _ _ _ Eb).
  eexists; split; [reflexivity|].
  now apply wellFormed_release.
Qed.

Lemma fires_wellFormed (s s' : State) :
  fires s s' -> wellFormed s -> wellFormed s'.
Proof.
  intros F W; destruct F as [b s|s|v s _|v s _|v s _].
  - now apply playSound_wellFormed.
  - destruct (stopSound_wellFormed s W) as (s' & -> & W'); exact W'.
  - exact (evolves_wellFormed _ _ (proj1 (stable_sliders v) s) W).
  - exact (evolves_wellFormed _ _ (proj1 (proj2 (stable_sliders v)) s) W).
  - exact (evolves_wellFormed _ _ (proj2 (proj2 (stable_sliders v)) s) W).
Qed.

Lemma reachable_wellFormed (s : State) : reachable s -> wellFormed s.
Proof.
  induction 1 as [|s s' _ IH F].
  - split; simpl; discriminate.
  - exact (fires_wellFormed _ _ F IH).
Qed.

(** [stopSound] raises no error in any state the component can be in. *)
Lemma stopSound_reachable (s : State) :
  reachable s -> exists s', stopSound s = Normal tt s'.
Proof.
  intros Hr; destruct (stopSound_wellFormed s (reachable_wellFormed s Hr))
    as (s' & E & _); now exists s'.
Qed.

Lemma stopSound_normal (s s1 : State) :
  stopSound s = Normal tt s1 ->
  oscillatorRef s1 = None /\ lfoOscillatorRef s1 = None /\ isPlaying s1 = false.
Proof.
  destruct s as [cf lr d p ctx o l g lg ns].
  unfold stopSound, stop, bind, gets, modify, ret; simpl.
  destruct o as [r1|], l as [r2|]; simpl;
    repeat match goal with
           | |- context [nth_error ?l ?r] =>
               destruct (nth_error l r) as [[?|?]|]; simpl
           | |- context [status ?o] => destruct (status o); simpl
           end;
    try discriminate; intros [= <-]; auto.
Qed.

Lemma stopSound_idle (s : State) :
  oscillatorRef s = None -> lfoOscillatorRef s = None -> isPlaying s = false ->
  stopSound s = Normal tt s.
Proof.
  destruct s as [cf lr d p ctx o l g lg ns]; simpl.
  intros -> -> ->; reflexivity.
Qed.

Lemma stop_normal (r : NodeRef) (s s' : State) :
  stop r s = Normal tt s' ->
  exists o,
    nth_error (nodes s) r = Some (Oscillator o) /\
    s' = set_nodes (update r (Oscillator {| frequency := frequency o;
                                            osc_type := osc_type o;
                                            status := Stopped |}) (nodes s)) s.
Proof.
  unfold stop.
  destruct (nth_error (nodes s) r) as [[o|g]|]; try discriminate.
  destruct (status o); try discriminate; intros [= <-]; now exists o.
Qed.

Lemma halted_update (l : list AudioNode) (r r' : NodeRef) (o o' : OscillatorNode) :
  nth_error l r = Some (Oscillator o) -> status o' = Stopped ->
  halted l r' \/ r' = r -> halted (update r (Oscillator o') l) r'.
Proof.
  intros Hr Hs H; unfold halted; rewrite nth_error_update.
  destruct (Nat.eqb_spec r r') as [->|Hne].
  - rewrite Hr; simpl; now exists o'.
  - destruct H as [H|H]; [exact H | congruence].
Qed.

Lemma bind_normal_inv {A B : Type} (m : Action A) (k : A -> Action B)
      (s s' : State) (b : B) :
  bind m k s = Normal b s' ->
  exists a s1, m s = Normal a s1 /\ k a s1 = Normal b s'.
Proof.
  unfold bind; destruct (m s) as [a s1|e s1]; [|discriminate].
  intros H; now exists a, s1.
Qed.

(** What a [stopSound] that ended normally has done: the oscillators the
    two boxes held are stopped. *)
Lemma stopSound_halts (s s1 : State) (r : NodeRef) :
  stopSound s = Normal tt s1 ->
  oscillatorRef s = Some r \/ lfoOscillatorRef s = Some r ->
  halted (nodes s1) r.
Proof.
  unfold stopSound; rewrite bind_gets; intros H Hr.
  apply bind_normal_inv in H; destruct H as ([] & sa & Ha & H).
  rewrite bind_gets in H.
  apply bind_normal_inv in H; destruct H as ([] & sb & Hb & H).
  injection H as <-; simpl.
  (* first block *)
  assert (A : lfoOscillatorRef sa = lfoOscillatorRef s /\
              (oscillatorRef s = Some r -> halted (nodes sa) r)).
  { destruct (oscillatorRef s) as [r1|].
    - apply bind_normal_inv in Ha; destruct Ha as ([] & s' & Hs & Ha).
      injection Ha as <-; apply stop_normal in Hs; destruct Hs as (o & Ho & ->).
      split; [reflexivity|]; intros [= ->]; simpl.
      apply (halted_update _ _ _ o); auto.
    - injection Ha as <-; split; [reflexivity | discriminate]. }
  destruct A as [Al Ah].
  destruct (lfoOscillatorRef sa) as [r2|] eqn:L.
  - apply bind_normal_inv in Hb; destruct Hb as ([] & s' & Hs & Hb).
    injection Hb as <-; apply stop_normal in Hs; destruct Hs as (o & Ho & ->).
    simpl. apply (halted_update _ _ _ o); auto.
    destruct Hr as [Hr|Hr]; [left; auto | right; congruence].
  - injection Hb as <-. destruct Hr as [Hr|Hr]; [auto | congruence].
Qed.

(** The sample run: Play builds the graph, Stop halts both oscillators and
    empties their boxes. *)
Example playing_state :
  isPlaying playing = true /\
  oscillatorRef playing = Some 0 /\ lfoOscillatorRef playing = Some 1 /\
  List.length (nodes playing) = 4.
Proof. vm_compute; repeat split. Qed.

Example silenced_state :
  stopSound playing = Normal tt silenced /\
  halted (nodes silenced) 0 /\ halted (nodes silenced) 1.
Proof.
  assert (E : stopSound playing = Normal tt silenced) by (vm_compute; reflexivity).
  split; [exact E|].
  split; apply (stopSound_halts playing silenced _ E); [left | right];
    vm_compute; reflexivity.
Qed.

(** **** The coherence of the audio state *)

Lemma setFrequency_at (r : NodeRef) (v : Q) (s : State) (n : OscillatorNode) :
  nth_error (nodes s) r = Some (Oscillator n) ->
  setFrequency r v s =
  Normal tt (set_nodes (update r (Oscillator {| frequency := v;
                                                osc_type := osc_type n;
                                                status := status n |})
                               (nodes s)) s).
Proof. intros H; unfold setFrequency; now rewrite H. Qed.

Lemma setGain_at (r : NodeRef) (v : Q) (s : State) (n : GainNode) :
  nth_error (nodes s) r = Some (Gain n) ->
  setGain r v s =
  Normal tt (set_nodes (update r (Gain {| gain := v |}) (nodes s)) s).
Proof. intros H; unfold setGain; now rewrite H. Qed.

Lemma stop_at (r : NodeRef) (s : State) (n : OscillatorNode) :
  nth_error (nodes s) r = Some (Oscillator n) -> status n <> Unstarted ->
  stop r s =
  Normal tt (set_nodes (update r (Oscillator {| frequency := frequency n;
                                                osc_type := osc_type n;
                                                status := Stopped |})
                               (nodes s)) s).
Proof.
  intros H Hs; unfold stop; rewrite H.
  destruct (status n); [congruence | reflexivity | reflexivity].
Qed.

Lemma nth_error_update_same (l : list AudioNode) (r : NodeRef) (n m : AudioNode) :
  nth_error l r = Some m -> nth_error (update r n l) r = Some n.
Proof. intros H; now rewrite nth_error_update, Nat.eqb_refl, H. Qed.

Lemma nth_error_update_other (l : list AudioNode) (r r' : NodeRef) (n : AudioNode) :
  r <> r' -> nth_error (update r n l) r' = nth_error l r'.
Proof.
  intros H; rewrite nth_error_update.
  now destruct (Nat.eqb_spec r r').
Qed.

(** [stopSound] on a live component, written out. *)
Lemma stopSound_live (o l g lg : NodeRef) (s : State) :
  liveOn o l g lg s ->
  stopSound s =
  Normal tt
    (setIsPlaying false
      (set_lfoOscillatorRef None
        (set_nodes
          (update l (Oscillator {| frequency := lfoRate s; osc_type := "sine";
                                   status := Stopped |})
            (update o (Oscillator {| frequency := carrierFreq s;
                                     osc_type := "sine"; status := Stopped |})
               (nodes s)))
          (set_oscillatorRef None s)))).
Proof.
  intros (Hp & Ho & Hl & Hg & Hlg & Hol & Hglg & No & Nl & Ng & Nlg & Hrest).
  unfold stopSound.
  rewrite bind_gets, Ho.
  pose proof (stop_at o s _ No ltac:(discriminate)) as E1; simpl in E1.
  erewrite (bind_normal (bind (stop o) _));
    [|rewrite (bind_normal _ _ _ _ _ E1); reflexivity].
  rewrite bind_gets; simpl lfoOscillatorRef; rewrite Hl.
  match goal with |- bind (bind (stop l) _) _ ?s1 = _ => set (sa := s1) end.
  assert (Nl' : nth_error (nodes sa) l =
                Some (Oscillator {| frequency := lfoRate s; osc_type := "sine";
                                    status := Sounding |})).
  { subst sa; simpl; rewrite nth_error_update_other by exact Hol; exact Nl. }
  pose proof (stop_at l sa _ Nl' ltac:(discriminate)) as E2; simpl in E2.
  erewrite (bind_normal (bind (stop l) _));
    [|rewrite (bind_normal _ _ _ _ _ E2); reflexivity].
  reflexivity.
Qed.

Lemma length_update (l : list AudioNode) (r : NodeRef) (n : AudioNode) :
  List.length (update r n l) = List.length l.
Proof.
  revert r; induction l as [|a l IH]; intros [|r]; simpl; auto.
Qed.

(** The effect on a standing graph: the three parameters take the slider
    values, nothing else changes. *)
Lemma updateAudioParams_graph (fc fl dg : Q) (o l g lg : NodeRef) (s : State) :
  graphOn fc fl dg o l g lg s ->
  exists s',
    updateAudioParams s = Normal tt s' /\ liveOn o l g lg s' /\
    carrierFreq s' = carrierFreq s /\ lfoRate s' = lfoRate s /\
    depth s' = depth s /\ audioContextRef s' = audioContextRef s /\
    List.length (nodes s') = List.length (nodes s).
Proof.
  intros (Hp & Ho & Hl & Hg & Hlg & Hol & Hglg & No & Nl & Ng & Nlg & Hrest).
  assert (Holg : o <> lg) by congruence.
  assert (Hllg : l <> lg) by congruence.
  assert (Hog : o <> g) by congruence.
  assert (Hlg' : l <> g) by congruence.
  eexists; split.
  - unfold updateAudioParams.
    rewrite !bind_gets, Ho, Hl, Hlg, bind_gets.
    rewrite (bind_normal _ _ _ _ _ (setFrequency_at o _ s _ No)), bind_gets.
    match goal with |- bind _ _ ?s1 = _ => set (sa := s1) end.
    assert (Na : nth_error (nodes sa) l =
                 Some (Oscillator {| frequency := fl; osc_type := "sine";
                                     status := Sounding |}))
      by (subst sa; simpl; now rewrite nth_error_update_other).
    rewrite (bind_normal _ _ _ _ _ (setFrequency_at l _ sa _ Na)), bind_gets.
    match goal with |- setGain _ _ ?s1 = _ => set (sb := s1) end.
    assert (Nb : nth_error (nodes sb) lg = Some (Gain {| gain := dg |}))
      by (subst sb sa; simpl; now rewrite !nth_error_update_other).
    rewrite (setGain_at lg _ sb _ Nb).
    subst sb sa; reflexivity.
  - split.
    + unfold liveOn, graphOn; simpl.
      repeat split; try assumption.
      * rewrite !nth_error_update_other by auto.
        now rewrite (nth_error_update_same _ _ _ _ No).
      * rewrite nth_error_update_other by auto.
        erewrite nth_error_update_same; [reflexivity|].
        rewrite nth_error_update_other by auto; exact Nl.
      * now rewrite !nth_error_update_other by auto.
      * erewrite nth_error_update_same; [reflexivity|].
        rewrite !nth_error_update_other by auto; exact Nlg.
      * intros r n Hro Hrl Hn.
        destruct (Nat.eq_dec lg r) as [<-|Hrlg].
        -- erewrite nth_error_update_same in Hn; [discriminate|].
           rewrite !nth_error_update_other by auto; exact Nlg.
        -- rewrite !nth_error_update_other in Hn by auto.
           exact (Hrest r n Hro Hrl Hn).
    + simpl; rewrite !length_update; repeat split.
Qed.

(** [playSound] on a component that is not playing, case by case. *)
Lemma playSound_outcome (b : Browser) (s : State) :
  isPlaying s = false ->
  playSound b s =
  match contextFor b s with
  | None => Abrupt TypeError s
  | Some c =>
      if resumeFails b c
      then Abrupt ResumeRejected (set_audioContextRef (Some c) s)
      else Normal tt (sounding c s)
  end.
Proof.
  destruct s as [cf lr d p ctx o l g lg ns]; simpl; intros ->.
  unfold contextFor, resumeFails; simpl.
  destruct ctx as [[[] conns]|]; simpl.
  - destruct (resumeFulfilled b) eqn:Hr; simpl;
      unfold sounding, wired; run_audio; rewrite Hr; run_audio; reflexivity.
  - unfold sounding, wired; run_audio; reflexivity.
  - unfold sounding, wired; run_audio; reflexivity.
  - destruct (newAudioContext b) as [[]|] eqn:Hn; simpl.
    + destruct (resumeFulfilled b) eqn:Hr; simpl;
        unfold sounding, wired; run_audio; rewrite Hn; run_audio;
        rewrite Hr; run_audio; reflexivity.
    + unfold sounding, wired; run_audio; rewrite Hn; run_audio; reflexivity.
    + unfold sounding, wired; run_audio; rewrite Hn; run_audio; reflexivity.
    + run_audio; rewrite Hn; reflexivity.
Qed.

Lemma sounding_live (c : AudioContext) (s : State) :
  silent s ->
  liveOn (List.length (nodes s)) (List.length (nodes s) + 1)
         (List.length (nodes s) + 2) (List.length (nodes s) + 3) (sounding c s).
Proof.
  intros (_ & _ & _ & Hq).
  unfold liveOn, graphOn, sounding; simpl.
  repeat split; try lia.
  - now rewrite nth_error_alloc0.
  - now rewrite nth_error_alloc.
  - now rewrite nth_error_alloc.
  - now rewrite nth_error_alloc.
  - intros r n Hro Hrl Hn.
    destruct (Nat.lt_ge_cases r (List.length (nodes s))) as [Hlt|Hge].
    + rewrite nth_error_app1 in Hn by exact Hlt. exact (Hq r n Hn).
    + rewrite nth_error_app2 in Hn by exact Hge.
      destruct (r - List.length (nodes s)) as [|[|[|[|k]]]] eqn:E; simpl in Hn;
        try discriminate; try lia.
      now destruct k.
Qed.

Lemma silent_frame (s s' : State) :
  isPlaying s' = isPlaying s -> oscillatorRef s' = oscillatorRef s ->
  lfoOscillatorRef s' = lfoOscillatorRef s -> nodes s' = nodes s ->
  silent s -> silent s'.
Proof.
  intros E1 E2 E3 E4 (A & B & C & D); unfold silent.
  rewrite E1, E2, E3, E4; auto.
Qed.

Lemma playSound_coherent (b : Browser) (s : State) :
  coherent s -> coherent (final (playSound b s)).
Proof.
  intros C. destruct (isPlaying s) eqn:P.
  - unfold playSound; rewrite bind_gets, P; exact C.
  - rewrite (playSound_outcome b s P).
    destruct C as [S|(o & l & g & lg & Hp & _)]; [|congruence].
    destruct (contextFor b s) as [c|]; [|now left].
    destruct (resumeFails b c); simpl.
    + left; revert S; now apply silent_frame.
    + right; do 4 eexists; now apply sounding_live.
Qed.

Lemma stopSound_coherent (s : State) :
  coherent s -> exists s', stopSound s = Normal tt s' /\ silent s'.
Proof.
  intros [S|(o & l & g & lg & L)].
  - exists s; split; [|exact S].
    destruct S as (A & B & C & _); now apply stopSound_idle.
  - rewrite (stopSound_live o l g lg s L).
    eexists; split; [reflexivity|].
    destruct L as (Hp & Ho & Hl & Hg & Hlg & Hol & Hglg & No & Nl & Ng & Nlg & Hrest).
    repeat split; simpl.
    intros r n Hn.
    destruct (Nat.eq_dec l r) as [<-|Hlr].
    + erewrite nth_error_update_same in Hn;
        [now injection Hn as <- |].
      rewrite nth_error_update_other by exact Hol; exact Nl.
    + rewrite nth_error_update_other in Hn by exact Hlr.
      destruct (Nat.eq_dec o r) as [<-|Hor].
      * rewrite (nth_error_update_same _ _ _ _ No) in Hn; now injection Hn as <-.
      * rewrite nth_error_update_other in Hn by exact Hor.
        apply (Hrest r n); auto.
Qed.

Lemma slider_coherent (set : Q -> State -> State) (v : Q) (s : State) :
  (forall s0, isPlaying (set v s0) = isPlaying s0 /\
              oscillatorRef (set v s0) = oscillatorRef s0 /\
              lfoOscillatorRef (set v s0) = lfoOscillatorRef s0 /\
              gainNodeRef (set v s0) = gainNodeRef s0 /\
              lfoGainRef (set v s0) = lfoGainRef s0 /\
              nodes (set v s0) = nodes s0) ->
  coherent s ->
  coherent (final (bind (modify (set v)) (fun _ => updateAudioParams) s)).
Proof.
  intros Hset [S|(o & l & g & lg & L)];
    destruct (Hset s) as (E1 & E2 & E3 & E4 & E5 & E6);
    unfold bind at 1; unfold modify at 1.
  - left. destruct S as (A & B & C & D).
    unfold updateAudioParams; rewrite !bind_gets, E2, B; simpl.
    unfold silent; rewrite E1, E2, E3, E6; auto.
  - right; exists o, l, g, lg.
    destruct (updateAudioParams_graph (carrierFreq s) (lfoRate s)
                (depth s / 100 * 0.3)%Q o l g lg (set v s)) as (s' & -> & L' & _).
    + destruct L as (Hp & Ho & Hl & Hg & Hlg & Hol & Hglg & No & Nl & Ng & Nlg & Hrest).
      unfold graphOn; rewrite E1, E2, E3, E4, E5, E6.
      repeat split; assumption.
    + exact L'.
Qed.

Lemma fires_coherent (s s' : State) : fires s s' -> coherent s -> coherent s'.
Proof.
  intros F C; destruct F as [b s|s|v s _|v s _|v s _].
  - now apply playSound_coherent.
  - destruct (stopSound_coherent s C) as (s' & -> & S); now left.
  - apply (slider_coherent setCarrierFreq); [intros; repeat split | exact C].
  - apply (slider_coherent setLfoRate); [intros; repeat split | exact C].
  - apply (slider_coherent setDepth); [intros; repeat split | exact C].
Qed.

Lemma reachable_coherent (s : State) : reachable s -> coherent s.
Proof.
  induction 1 as [|s s' _ IH F].
  - left; repeat split. intros [|r] o H; discriminate.
  - exact (fires_coherent _ _ F IH).
Qed.

Lemma coherent_cases (s : State) :
  coherent s ->
  (isPlaying s = false /\ silent s) \/
  (isPlaying s = true /\ exists o l g lg, liveOn o l g lg s).
Proof.
  intros [S|(o & l & g & lg & L)].
  - left; split; [apply S | exact S].
  - right; split; [apply L | now exists o, l, g, lg].
Qed.

(** A slider handler on a coherent state: it ends normally, and what it
    leaves is the state after the setter, with the live nodes retuned. *)
Lemma slider_outcome (set : Q -> State -> State) (v : Q) (s : State) :
  (forall s0, isPlaying (set v s0) = isPlaying s0 /\
              oscillatorRef (set v s0) = oscillatorRef s0 /\
              lfoOscillatorRef (set v s0) = lfoOscillatorRef s0 /\
              gainNodeRef (set v s0) = gainNodeRef s0 /\
              lfoGainRef (set v s0) = lfoGainRef s0 /\
              nodes (set v s0) = nodes s0) ->
  coherent s ->
  exists s',
    bind (modify (set v)) (fun _ => updateAudioParams) s = Normal tt s' /\
    carrierFreq s' = carrierFreq (set v s) /\ lfoRate s' = lfoRate (set v s) /\
    depth s' = depth (set v s) /\ isPlaying s' = isPlaying s /\
    audioContextRef s' = audioContextRef (set v s) /\
    List.length (nodes s') = List.length (nodes s).
Proof.
  intros Hset C; destruct (Hset s) as (E1 & E2 & E3 & E4 & E5 & E6).
  unfold bind at 1; unfold modify at 1.
  destruct C as [(A & B & _)|(o & l & g & lg & L)].
  - exists (set v s); unfold updateAudioParams.
    rewrite !bind_gets, E2, B; simpl; rewrite E6; repeat split; auto.
  - destruct (updateAudioParams_graph (carrierFreq s) (lfoRate s)
                (depth s / 100 * 0.3)%Q o l g lg (set v s))
      as (s' & -> & L' & F1 & F2 & F3 & F4 & F5).
    + destruct L as (Hp & Ho & Hl & Hg & Hlg & Hol & Hglg & No & Nl & Ng & Nlg & Hrest).
      unfold graphOn; rewrite E1, E2, E3, E4, E5, E6.
      repeat split; assumption.
    + exists s'; repeat split; auto; [|congruence].
      destruct L as (Hp & _), L' as (Hp' & _); congruence.
Qed.

Lemma setters_frame :
  forall v s0,
    (isPlaying (setCarrierFreq v s0) = isPlaying s0 /\
     oscillatorRef (setCarrierFreq v s0) = oscillatorRef s0 /\
     lfoOscillatorRef (setCarrierFreq v s0) = lfoOscillatorRef s0 /\
     gainNodeRef (setCarrierFreq v s0) = gainNodeRef s0 /\
     lfoGainRef (setCarrierFreq v s0) = lfoGainRef s0 /\
     nodes (setCarrierFreq v s0) = nodes s0) /\
    (isPlaying (setLfoRate v s0) = isPlaying s0 /\
     oscillatorRef (setLfoRate v s0) = oscillatorRef s0 /\
     lfoOscillatorRef (setLfoRate v s0) = lfoOscillatorRef s0 /\
     gainNodeRef (setLfoRate v s0) = gainNodeRef s0 /\
     lfoGainRef (setLfoRate v s0) = lfoGainRef s0 /\
     nodes (setLfoRate v s0) = nodes s0) /\
    (isPlaying (setDepth v s0) = isPlaying s0 /\
     oscillatorRef (setDepth v s0) = oscillatorRef s0 /\
     lfoOscillatorRef (setDepth v s0) = lfoOscillatorRef s0 /\
     gainNodeRef (setDepth v s0) = gainNodeRef s0 /\
     lfoGainRef (setDepth v s0) = lfoGainRef s0 /\
     nodes (setDepth v s0) = nodes s0).
Proof. intros; repeat split. Qed.

Lemma playSound_sliders (b : Browser) (s : State) :
  sliders (final (playSound b s)) = sliders s.
Proof.
  destruct (isPlaying s) eqn:P.
  - unfold playSound; now rewrite bind_gets, P.
  - rewrite (playSound_outcome b s P).
    destruct (contextFor b s) as [c|]; [|reflexivity].
    now destruct (resumeFails b c).
Qed.

Lemma stopSound_sliders (s : State) :
  coherent s -> sliders (final (stopSound s)) = sliders s.
Proof.
  intros [S|(o & l & g & lg & L)].
  - destruct S as (A & B & C & _); now rewrite stopSound_idle.
  - now rewrite (stopSound_live o l g lg s L).
Qed.

Lemma inRange_sliders (s s' : State) : sliders s' = sliders s -> inRange s -> inRange s'.
Proof. unfold sliders, inRange; intros [= -> -> ->]; auto. Qed.

Lemma reachable_inRange (s : State) : reachable s -> inRange s.
Proof.
  induction 1 as [|s s' R IH F].
  - unfold inRange; simpl; repeat split; discriminate.
  - pose proof (reachable_coherent s R) as C.
    destruct F as [b s|s|v s Hv|v s Hv|v s Hv].
    + exact (inRange_sliders _ _ (playSound_sliders b s) IH).
    + exact (inRange_sliders _ _ (stopSound_sliders s C) IH).
    + destruct (slider_outcome setCarrierFreq v s (fun s0 => proj1 (setters_frame v s0)) C)
        as (s' & E & F1 & F2 & F3 & _).
      unfold onCarrierFreqChange; rewrite E; simpl.
      unfold inRange; rewrite F1, F2, F3; simpl. destruct IH as (_ & A & B); auto.
    + destruct (slider_outcome setLfoRate v s
                  (fun s0 => proj1 (proj2 (setters_frame v s0))) C)
        as (s' & E & F1 & F2 & F3 & _).
      unfold onLfoRateChange; rewrite E; simpl.
      unfold inRange; rewrite F1, F2, F3; simpl. destruct IH as (A & _ & B); auto.
    + destruct (slider_outcome setDepth v s
                  (fun s0 => proj2 (proj2 (setters_frame v s0))) C)
        as (s' & E & F1 & F2 & F3 & _).
      unfold onDepthChange; rewrite E; simpl.
      unfold inRange; rewrite F1, F2, F3; simpl. destruct IH as (A & B & _); auto.
Qed.

Lemma cycle_silent (b : Browser) (s : State) :
  silent s -> resumeFulfilled b = true -> contextFor b s <> None ->
  silent (cycle b s) /\ contextFor b (cycle b s) <> None /\
  List.length (nodes (cycle b s)) = List.length (nodes s) + 4 /\
  connectionCount (cycle b s) = connectionCount s + 4.
Proof.
  intros S Hr Hc; unfold cycle.
  pose proof S as (P & _).
  rewrite (playSound_outcome b s P).
  destruct (contextFor b s) as [c|] eqn:Ec; [|congruence].
  assert (Er : resumeFails b c = false)
    by (unfold resumeFails; rewrite Hr; now destruct (ctx_state c)).
  rewrite Er; simpl.
  pose proof (sounding_live c s S) as L.
  rewrite (stopSound_live _ _ _ _ _ L).
  destruct (stopSound_coherent (sounding c s)) as (s' & E & S').
  { right; do 4 eexists; exact L. }
  rewrite (stopSound_live _ _ _ _ _ L) in E; injection E as <-.
  split; [exact S'|]; simpl; split; [|split].
  - unfold contextFor; simpl; discriminate.
  - rewrite !length_update, length_app; reflexivity.
  - unfold connectionCount; simpl; rewrite length_app; simpl.
    unfold contextFor in Ec.
    destruct (audioContextRef s) as [c0|]; [now injection Ec as -> |].
    destruct (newAudioContext b); [now injection Ec as <- | discriminate].
Qed.

Lemma keeps_refl (s : State) : keeps s s.
Proof. repeat split; auto. Qed.

Lemma keeps_trans (s1 s2 s3 : State) : keeps s1 s2 -> keeps s2 s3 -> keeps s1 s3.
Proof.
  intros (A1 & A2 & A3 & A4 & A5 & A6) (B1 & B2 & B3 & B4 & B5 & B6).
  repeat split; try congruence; auto.
Qed.

Lemma release_keeps (box : option NodeRef) (clear : State -> State)
      (s s' : State) :
  (forall s0, keeps s0 (clear s0)) ->
  match box with
  | Some r => bind (stop r) (fun _ => modify clear)
  | None => ret tt
  end s = Normal tt s' ->
  keeps s s'.
Proof.
  intros Hclear; destruct box as [r|].
  - intros H; apply bind_normal_inv in H; destruct H as ([] & s1 & Hs & H).
    injection H as <-; apply stop_normal in Hs; destruct Hs as (o & Ho & ->).
    refine (keeps_trans _ _ _ _ (Hclear _)).
    repeat split; simpl; [apply length_update|].
    intros r' g Hg; rewrite nth_error_update_other; [exact Hg | congruence].
  - intros [= <-]; apply keeps_refl.
Qed.

End Audio.

Lemma playing_reachable : reachable playing.
Proof. exact (reachable_fires _ _ reachable_mount (fires_play browser mount)). Qed.


(** C8.  A second [stopSound], after a first one that ended normally, is a
    no-op: it raises nothing and returns the state of the first, in which
    the two oscillator boxes are [null] and [isPlaying] is false. *)
Theorem stop_after_stop (s s1 : State) :
  stopSound s = Normal tt s1 ->
  stopSound s1 = Normal tt s1 /\
  oscillatorRef s1 = None /\ lfoOscillatorRef s1 = None /\
  isPlaying s1 = false.
Proof.
  intros H; destruct (stopSound_normal s s1 H) as (Ho & Hl & Hp).
  split; [now apply stopSound_idle | auto].
Qed.

Lemma stop_after_stop_witness :
  stopSound silenced = Normal tt silenced /\
  oscillatorRef silenced = None /\ lfoOscillatorRef silenced = None /\
  isPlaying silenced = false.
Proof.
  apply (stop_after_stop playing silenced).
  vm_compute; reflexivity.
Defined.

(** C9.  [playSound] called while [isPlaying] is true returns at once: no
    node is created and the state is the one it was called in. *)
Theorem play_while_playing (b : Browser) (s : State) :
  isPlaying s = true -> playSound b s = Normal tt s.
Proof.
  intros H; unfold playSound; rewrite bind_gets, H; reflexivity.
Qed.

Lemma play_while_playing_witness : playSound browser playing = Normal tt playing.
Proof.
  apply (play_while_playing browser playing).
  vm_compute; reflexivity.
Defined.

(** *** Further properties of the audio handlers *)

Section AudioMore.

Local Open Scope nat_scope.

Lemma retuned_reachable : reachable retuned.
Proof.
  apply (reachable_fires _ _ playing_reachable), fires_rate.
  split; discriminate.
Qed.

(** X13.  [playSound] ends normally exactly when the component is already
    playing, or a context is at hand (the one of the box, or one the
    browser can construct) on which [resume()] is not called and rejected. *)
Theorem play_normal_iff (b : Browser) (s : State) :
  (exists s', playSound b s = Normal tt s') <->
  isPlaying s = true \/
  exists c, contextFor b s = Some c /\ resumeFails b c = false.
Proof.
  destruct (isPlaying s) eqn:P.
  - split; [auto | intros _; exists s].
    unfold playSound; now rewrite bind_gets, P.
  - rewrite (playSound_outcome b s P).
    destruct (contextFor b s) as [c|].
    + destruct (resumeFails b c) eqn:Er.
      * split; [intros [s' H]; discriminate|].
        intros [H|(c' & [= <-] & H)]; congruence.
      * split; [intros _; right; now exists c | intros _; now eexists].
    + split; [intros [s' H]; discriminate|].
      intros [H|(c' & H & _)]; discriminate.
Qed.

(** X14.  A [playSound] that throws has created no node and changed no
    cell: the state differs from the one before at most in
    [audioContextRef].  It throws [TypeError] when there is neither a context
    nor a constructor, and otherwise the rejection of [resume()], with the
    suspended context kept in the box. *)
Theorem play_failure (b : Browser) (s s' : State) (e : Exception) :
  playSound b s = Abrupt e s' ->
  isPlaying s = false /\
  s' = set_audioContextRef (audioContextRef s') s /\
  ((e = TypeError /\ audioContextRef s = None /\ newAudioContext b = None /\
    audioContextRef s' = None) \/
   (e = ResumeRejected /\ resumeFulfilled b = false /\
    exists c, audioContextRef s' = Some c /\ ctx_state c = suspended)).
Proof.
  intros H; destruct (isPlaying s) eqn:P.
  { unfold playSound in H; rewrite bind_gets, P in H; discriminate. }
  split; [reflexivity|].
  rewrite (playSound_outcome b s P) in H.
  unfold contextFor, resumeFails in H.
  destruct s as [cf lr d p ctx o l g lg ns]; simpl in *.
  destruct ctx as [c|].
  - destruct (ctx_state c) eqn:Ec; try discriminate.
    destruct (resumeFulfilled b) eqn:Hr; try discriminate.
    injection H as <- <-; simpl; split; [reflexivity|].
    right; repeat split; now exists c.
  - destruct (newAudioContext b) as [st|] eqn:Hn.
    + simpl in H. destruct st; try discriminate.
      destruct (resumeFulfilled b) eqn:Hr; try discriminate.
      injection H as <- <-; simpl; split; [reflexivity|].
      right; repeat split; eexists; split; reflexivity.
    + injection H as <- <-; simpl; split; [reflexivity|].
      left; repeat split.
Qed.

Lemma play_failure_witness :
  isPlaying mount = false /\
  mount = set_audioContextRef (audioContextRef mount) mount.
Proof.
  destruct (play_failure noAudio mount mount TypeError) as (A & B & _).
  - reflexivity.
  - split; [exact A | exact B].
Defined.

(** X15.  A [playSound] that goes through on a component that is not
    playing sets [isPlaying], leaves the sliders, appends exactly four nodes
    to the store, puts them in the four boxes in the order of creation,
    leaves the context not suspended, and adds four connections. *)
Theorem play_success (b : Browser) (s s' : State) :
  isPlaying s = false -> playSound b s = Normal tt s' ->
  isPlaying s' = true /\ sliders s' = sliders s /\
  (exists new, nodes s' = (nodes s ++ new)%list /\ List.length new = 4) /\
  oscillatorRef s' = Some (List.length (nodes s)) /\
  lfoOscillatorRef s' = Some (List.length (nodes s) + 1) /\
  gainNodeRef s' = Some (List.length (nodes s) + 2) /\
  lfoGainRef s' = Some (List.length (nodes s) + 3) /\
  (exists c, audioContextRef s' = Some c /\ ctx_state c <> suspended) /\
  connectionCount s' = connectionCount s + 4.
Proof.
  intros P H; rewrite (playSound_outcome b s P) in H.
  destruct (contextFor b s) as [c|] eqn:Ec; [|discriminate].
  destruct (resumeFails b c) eqn:Er; [discriminate|].
  injection H as <-; unfold sounding; simpl.
  repeat split.
  - eexists; split; reflexivity.
  - eexists; split; [reflexivity|]; simpl.
    unfold resumeFails in Er; destruct (ctx_state c); discriminate.
  - unfold connectionCount; simpl; rewrite length_app; simpl.
    unfold contextFor in Ec.
    destruct (audioContextRef s) as [c0|]; [now injection Ec as -> |].
    destruct (newAudioContext b); [now injection Ec as <- | discriminate].
Qed.

Lemma play_success_witness :
  isPlaying playing = true /\ sliders playing = sliders mount.
Proof.
  destruct (play_success browser mount playing) as (A & B & _).
  - reflexivity.
  - vm_compute; reflexivity.
  - split; [exact A | exact B].
Defined.

(** X16.  In every reachable state [isPlaying] holds exactly when the
    oscillator box is occupied, and exactly when the LFO box is. *)
Theorem playing_iff_boxes (s : State) :
  reachable s ->
  (isPlaying s = true <-> oscillatorRef s <> None) /\
  (isPlaying s = true <-> lfoOscillatorRef s <> None).
Proof.
  intros R; destruct (coherent_cases s (reachable_coherent s R))
    as [(P & _ & O & L & _)|(P & o & l & g & lg & _ & O & L & _)];
    rewrite P, O, L; split; split; congruence.
Qed.

Lemma playing_iff_boxes_witness :
  (isPlaying playing = true <-> oscillatorRef playing <> None) /\
  (isPlaying playing = true <-> lfoOscillatorRef playing <> None).
Proof. apply (playing_iff_boxes playing), playing_reachable. Defined.







(** X20.  [stopSound] releases nothing but the two oscillators: the
    sliders, the context, the two gain boxes, the size of the store and every
    gain node are as before. *)
Theorem stop_frame (s s' : State) :
  stopSound s = Normal tt s' ->
  sliders s' = sliders s /\ audioContextRef s' = audioContextRef s /\
  gainNodeRef s' = gainNodeRef s /\ lfoGainRef s' = lfoGainRef s /\
  List.length (nodes s') = List.length (nodes s) /\
  (forall r g, nth_error (nodes s) r = Some (Gain g) ->
               nth_error (nodes s') r = Some (Gain g)).
Proof.
  unfold stopSound; rewrite bind_gets; intros H.
  apply bind_normal_inv in H; destruct H as ([] & sa & Ha & H).
  rewrite bind_gets in H.
  apply bind_normal_inv in H; destruct H as ([] & sb & Hb & H).
  injection H as <-.
  apply release_keeps in Ha; [|intros s0; exact (keeps_refl s0)].
  apply release_keeps in Hb; [|intros s0; exact (keeps_refl s0)].
  exact (keeps_trans _ _ _ (keeps_trans _ _ _ Ha Hb) (keeps_refl sb)).
Qed.

Lemma stop_frame_witness :
  sliders silenced = sliders playing /\
  audioContextRef silenced = audioContextRef playing.
Proof.
  destruct (stop_frame playing silenced) as (A & B & _).
  - vm_compute; reflexivity.
  - split; [exact A | exact B].
Defined.

(** X21.  Nodes and connections are never given back: [k] rounds of Play
    and Stop leave [4 * k] more nodes in the store and [4 * k] more
    connections in the context. *)
Theorem cycles_accumulate (b : Browser) (s : State) (k : nat) :
  reachable s -> isPlaying s = false ->
  resumeFulfilled b = true -> contextFor b s <> None ->
  isPlaying (Nat.iter k (cycle b) s) = false /\
  List.length (nodes (Nat.iter k (cycle b) s)) = List.length (nodes s) + 4 * k /\
  connectionCount (Nat.iter k (cycle b) s) = connectionCount s + 4 * k.
Proof.
  intros R P Hr Hc.
  assert (Hs : silent s).
  { destruct (coherent_cases s (reachable_coherent s R)) as [[_ Hs]|[P' _]];
      [exact Hs | congruence]. }
  assert (H : silent (Nat.iter k (cycle b) s) /\
              contextFor b (Nat.iter k (cycle b) s) <> None /\
              List.length (nodes (Nat.iter k (cycle b) s)) =
                List.length (nodes s) + 4 * k /\
              connectionCount (Nat.iter k (cycle b) s) = connectionCount s + 4 * k).
  { induction k as [|k (Sk & Ck & Lk & Nk)].
    - simpl; split; [exact Hs|]; split; [exact Hc|]; split; lia.
    - change (Nat.iter (S k) (cycle b) s) with (cycle b (Nat.iter k (cycle b) s)).
      destruct (cycle_silent b _ Sk Hr Ck) as (S' & C' & L' & N').
      split; [exact S'|]; split; [exact C'|]; split; lia. }
  destruct H as ((P' & _) & _ & L & N); auto.
Qed.

Lemma cycles_accumulate_witness :
  isPlaying (Nat.iter 3 (cycle browser) mount) = false /\
  List.length (nodes (Nat.iter 3 (cycle browser) mount)) =
    List.length (nodes mount) + 4 * 3 /\
  connectionCount (Nat.iter 3 (cycle browser) mount) =
    connectionCount mount + 4 * 3.
Proof.
  apply (cycles_accumulate browser mount 3).
  - exact reachable_mount.
  - reflexivity.
  - reflexivity.
  - discriminate.
Defined.

(** X22.  In a reachable state a move of a slider ends normally, sets its
    own cell to the new value and leaves the two other cells and [isPlaying]
    alone. *)
Theorem slider_handlers (s : State) (v : Q) :
  reachable s ->
  (exists s', onCarrierFreqChange v s = Normal tt s' /\
     sliders s' = (v, lfoRate s, depth s) /\ isPlaying s' = isPlaying s) /\
  (exists s', onLfoRateChange v s = Normal tt s' /\
     sliders s' = (carrierFreq s, v, depth s) /\ isPlaying s' = isPlaying s) /\
  (exists s', onDepthChange v s = Normal tt s' /\
     sliders s' = (carrierFreq s, lfoRate s, v) /\ isPlaying s' = isPlaying s).
Proof.
  intros R; pose proof (reachable_coherent s R) as C.
  split; [|split].
  - destruct (slider_outcome setCarrierFreq v s
                (fun s0 => proj1 (setters_frame v s0)) C)
      as (s' & E & F1 & F2 & F3 & F4 & _).
    exists s'; unfold sliders; rewrite F1, F2, F3; auto.
  - destruct (slider_outcome setLfoRate v s
                (fun s0 => proj1 (proj2 (setters_frame v s0))) C)
      as (s' & E & F1 & F2 & F3 & F4 & _).
    exists s'; unfold sliders; rewrite F1, F2, F3; auto.
  - destruct (slider_outcome setDepth v s
                (fun s0 => proj2 (proj2 (setters_frame v s0))) C)
      as (s' & E & F1 & F2 & F3 & F4 & _).
    exists s'; unfold sliders; rewrite F1, F2, F3; auto.
Qed.

Lemma slider_handlers_witness :
  exists s', onDepthChange 25 playing = Normal tt s' /\
    sliders s' = (carrierFreq playing, lfoRate playing, 25%Q) /\
    isPlaying s' = isPlaying playing.
Proof.
  destruct (slider_handlers playing 25 playing_reachable) as (_ & _ & H).
  exact H.
Defined.

(** X23.  The three cells stay within the [min] and [max] of their range
    inputs in every reachable state, so every sample value drawn lies in
    [[-1, 1]]. *)
Theorem sliders_stay_in_range (s : State) :
  reachable s ->
  (200 <= carrierFreq s <= 1000)%Q /\ (0.5 <= lfoRate s <= 200)%Q /\
  (0 <= depth s <= 100)%Q /\
  forall i, (-1 <= modulated s i <= 1)%R.
Proof.
  intros R; destruct (reachable_inRange s R) as (A & B & C).
  split; [exact A|]. split; [exact B|]. split; [exact C|].
  intros i.
  pose proof (lfoModulator_range s i C) as He.
  pose proof (SIN_bound (2 * PI * Q2R (carrierFreq s) * t s i)) as Hc.
  unfold modulated, carrierWave; split; nra.
Qed.

Lemma sliders_stay_in_range_witness :
  (200 <= carrierFreq retuned <= 1000)%Q /\ (0.5 <= lfoRate retuned <= 200)%Q /\
  (0 <= depth retuned <= 100)%Q /\
  forall i, (-1 <= modulated retuned i <= 1)%R.
Proof. apply (sliders_stay_in_range retuned), retuned_reachable. Defined.

(** X24.  A number that [getEffectInfo] formats with [toFixed] is a
    sideband, [carrierFreq - lfoRate] or [carrierFreq + lfoRate], formatted to
    0 digits; it appears only outside the tremolo range, and in a reachable
    state it lies between 0 and 1200 Hz. *)
Theorem sidebands_in_range (s : State) (q : Q) (d : nat) :
  reachable s ->
  In (ToFixed q d) (description (getEffectInfo s)) ->
  (0 <= q <= 1200)%Q /\ d = 0 /\
  (q == carrierFreq s - lfoRate s \/ q == carrierFreq s + lfoRate s)%Q /\
  classify s <> Tremolo.
Proof.
  intros R; destruct (reachable_inRange s R) as ([C0 C1] & [R0 R1] & _).
  unfold classify, getEffectInfo.
  destruct (Qlt_le_dec (lfoRate s) 20); [|destruct (Qlt_le_dec (lfoRate s) 50)];
    simpl; intros H;
    repeat (destruct H as [H|H]; try discriminate; try contradiction);
    injection H as <- <-;
    (split; [split; lra|]); (split; [reflexivity|]);
    (split; [|discriminate]); [left|right|left|right]; reflexivity.
Qed.

Lemma sidebands_in_range_witness :
  (0 <= carrierFreq retuned - lfoRate retuned <= 1200)%Q /\ 0 = 0 /\
  (carrierFreq retuned - lfoRate retuned == carrierFreq retuned - lfoRate retuned \/
   carrierFreq retuned - lfoRate retuned == carrierFreq retuned + lfoRate retuned)%Q /\
  classify retuned <> Tremolo.
Proof.
  apply (sidebands_in_range retuned (carrierFreq retuned - lfoRate retuned)%Q 0).
  - exact retuned_reachable.
  - vm_compute; right; left; reflexivity.
Defined.

End AudioMore.

End LFOEffectsProofs.

(* ================================================================= *)
(** ** Properties of the home page *)

Module HomePageProofs.

Import HomePage.

Local Open Scope R_scope.

(** X25.  The hero shows 20 bars; the height of each lies between 20% and
    80%, and its animation delay between 0 and 2 seconds. *)
Theorem wave_bars_fit :
  List.length waveBars = 20%nat /\
  Forall (fun b => 20 <= height b <= 80 /\ 0 <= animationDelay b < 2) waveBars.
Proof.
  split; [reflexivity|].
  apply Forall_forall; intros b Hb.
  apply in_map_iff in Hb; destruct Hb as (i & <- & Hi).
  apply in_seq in Hi; simpl.
  pose proof (SIN_bound (INR i * 0.5)) as Hs.
  pose proof (pos_INR i) as H0.
  assert (Hlt : INR i < 20).
  { replace 20 with (INR 20) by (rewrite INR_IZR_INZ; reflexivity).
    apply lt_INR; lia. }
  split; lra.
Qed.

End HomePageProofs.
